(** * hippiepug: key-value Merkle trees ([hippiepug/tree.py])

    A shallow embedding of [TreeBuilder] (staging, [_make_subtree], [commit])
    and of [Tree] ([get_node_by_hash], [get_inclusion_proof], [__getitem__],
    [__contains__]), followed by the properties of the construction and of
    the lookup. *)

From Stdlib Require Import Strings.String Strings.Ascii Strings.Byte Arith Lia.
From stdpp Require Import base option list gmap strings sorting.

Local Open Scope string_scope.
Local Open Scope list_scope.

(** ** Outcomes of a call *)

(** The exceptions the embedded code can raise.  [ValueError], [KeyError],
    [IndexError] and [AttributeError] are Python's; [CorruptionError] is the
    object store's integrity failure and [DecodeError] a failure of the codec
    on bytes that are no node. *)
Inductive exn :=
  | ValueError | KeyError | IndexError | AttributeError
  | CorruptionError | DecodeError.

(** A call returns, raises, or (for the fuelled recursions below) exhausts its
    fuel. *)
Inductive result (A : Type) :=
  | Ok (a : A)
  | Raise (e : exn)
  | OutOfFuel.
Arguments Ok {A} a.
Arguments Raise {A} e.
Arguments OutOfFuel {A}.

#[global] Instance exn_eq_dec : EqDecision exn.
Proof. solve_decision. Defined.

#[global] Instance result_ret : MRet result := fun A a => Ok a.
#[global] Instance result_bind : MBind result := fun A B f m =>
  match m with
  | Ok a => f a
  | Raise e => Raise e
  | OutOfFuel => OutOfFuel
  end.

(** Stateful code: a call reads and writes a state [S] and ends in an
    outcome; the state survives a raised exception. *)
Definition St (S A : Type) : Type := S -> result A * S.

#[global] Instance St_ret {S} : MRet (St S) := fun A a st => (Ok a, st).
#[global] Instance St_bind {S} : MBind (St S) := fun A B f m st =>
  match m st with
  | (Ok a, st') => f a st'
  | (Raise e, st') => (Raise e, st')
  | (OutOfFuel, st') => (OutOfFuel, st')
  end.

Definition st_get {S} : St S S := fun st => (Ok st, st).
Definition st_modify {S} (f : S -> S) : St S unit := fun st => (Ok tt, f st).
Definition st_lift {S A} (r : result A) : St S A := fun st => (r, st).

(** [for x in l: body(x)] *)
Fixpoint for_each {S A} (l : list A) (body : A -> St S unit) : St S unit :=
  match l with
  | [] => mret tt
  | x :: l' => body x ≫= fun _ => for_each l' body
  end.

(** ** Keys: Python strings *)

(** Python compares strings lexicographically by code point; [String.ltb] is
    that order on strings of 8-bit characters. *)
Definition str_lt (a b : string) : bool := (a <? b)%string.

(** [s[:n]] *)
Fixpoint slice_to (n : nat) (s : string) : string :=
  match n, s with
  | S n', String c s' => String c (slice_to n' s')
  | _, _ => ""
  end.

(** [p] is a prefix of [s]. *)
Fixpoint is_prefix (p s : string) : bool :=
  match p, s with
  | "", _ => true
  | String c p', String d s' => if decide (c = d) then is_prefix p' s' else false
  | String _ _, "" => false
  end.

(** [cp] is the longest common prefix of the strings of [m]. *)
Definition is_lcp (cp : string) (m : list string) : Prop :=
  (forall x, x ∈ m -> is_prefix cp x = true) /\
  (forall q, (forall x, x ∈ m -> is_prefix q x = true) -> is_prefix q cp = true).

(** [min(m)] and [max(m)] for a sequence [x :: m]: the first smallest and the
    first largest element, found with [<] alone. *)
Definition str_min (x : string) (m : list string) : string :=
  fold_left (fun acc y => if str_lt y acc then y else acc) m x.
Definition str_max (x : string) (m : list string) : string :=
  fold_left (fun acc y => if str_lt acc y then y else acc) m x.

(** The loop of [os.path.commonprefix]:
    [for i, c in enumerate(s1): if c != s2[i]: return s1[:i]] and then
    [return s1].  The characters matched so far are [s1[:i]]; [s2[i]] raises
    [IndexError] when [s2] is exhausted first. *)
Fixpoint commonprefix_loop (s1 s2 : string) : result string :=
  match s1 with
  | "" => Ok ""
  | String c s1' =>
      match s2 with
      | "" => Raise IndexError
      | String d s2' =>
          if decide (c = d)
          then r ← commonprefix_loop s1' s2'; Ok (String c r)
          else Ok ""
      end
  end.

(** [os.path.commonprefix(m)] *)
Definition commonprefix (m : list string) : result string :=
  match m with
  | [] => Ok ""
  | x :: m' => commonprefix_loop (str_min x m') (str_max x m')
  end.

(** ** Node model *)

Abbreviation bytes := (list byte) (only parsing).

(** Modelled from the spec: the content address of the object store
    ([hippiepug/store.py]), a digest rendered as a sequence of characters.  As
    a Python value it is falsy exactly when it is empty. *)
Abbreviation Hash := string (only parsing).

Definition truthy (h : Hash) : bool :=
  match h with "" => false | _ => true end.

(** Modelled from the spec: the two records of [hippiepug/struct.py].  A leaf
    holds a lookup key and the hash of its payload; an internal node holds a
    pivot prefix and the hashes of its children, either of which may be
    absent ([None]). *)
Inductive Node :=
  | TreeLeaf (lookup_key : string) (payload_hash : Hash)
  | TreeNode (pivot_prefix : string) (left_hash right_hash : option Hash).

#[global] Instance Node_eq_dec : EqDecision Node.
Proof. solve_decision. Defined.

(** [get_node_key], the local function of [_make_subtree]. *)
Definition get_node_key (node : Node) : string :=
  match node with
  | TreeLeaf lookup_key _ => lookup_key
  | TreeNode pivot_prefix _ _ => pivot_prefix
  end.

(** [l[0]] *)
Definition index0 {A} (l : list A) : result A :=
  match l with
  | [] => Raise IndexError
  | x :: _ => Ok x
  end.

(** ** The staged items: a Python dict *)

(** A dict keeps its keys distinct and in insertion order. *)
Abbreviation items_t := (list (string * bytes)) (only parsing).

(** [d[k] = v]: overwrite in place, or append. *)
Fixpoint dict_set (k : string) (v : bytes) (d : items_t) : items_t :=
  match d with
  | [] => [(k, v)]
  | (k', v') :: d' =>
      if decide (k' = k) then (k, v) :: d' else (k', v') :: dict_set k v d'
  end.

Fixpoint dict_get (k : string) (d : items_t) : option bytes :=
  match d with
  | [] => None
  | (k', v') :: d' => if decide (k' = k) then Some v' else dict_get k d'
  end.

(** [sorted(items, key=lambda t: t[0])]: a stable sort that compares keys with
    [<] only.  Insertion from the right, each item placed before the first
    item whose key is not smaller. *)
Fixpoint insert_sorted (x : string * bytes) (l : items_t) : items_t :=
  match l with
  | [] => [x]
  | y :: l' =>
      if str_lt y.1 x.1 then y :: insert_sorted x l' else x :: y :: l'
  end.

Definition sorted_by_key (l : items_t) : items_t :=
  foldr insert_sorted [] l.

(** The order in which [sorted] leaves the items. *)
Definition key_le (x y : string * bytes) : Prop := str_lt y.1 x.1 = false.

(** ** The object store *)

(** Modelled from the spec: the object store of [hippiepug/store.py], a
    content-addressed dictionary from hashes to serialized bytes. *)
Abbreviation store_t := (gmap Hash bytes) (only parsing).

(** ** A reference instance of the collaborators

    An injective hash (the bytes themselves behind a one-character tag) and a
    self-delimiting codec.  They show that the assumptions made on the
    collaborators below can be met, and let the embedded code run. *)
Module Reference.

Definition hash_object (b : bytes) : Hash :=
  String "h" (string_of_list_byte b).

Fixpoint enc_str (s : string) (rest : bytes) : bytes :=
  match s with
  | "" => x00 :: rest
  | String c s' => x01 :: byte_of_ascii c :: enc_str s' rest
  end.

Fixpoint dec_str (b : bytes) : option (string * bytes) :=
  match b with
  | x00 :: rest => Some ("", rest)
  | x01 :: c :: rest =>
      match dec_str rest with
      | Some (s, rest') => Some (String (ascii_of_byte c) s, rest')
      | None => None
      end
  | _ => None
  end.

Definition enc_opt (o : option Hash) (rest : bytes) : bytes :=
  match o with
  | None => x00 :: rest
  | Some h => x01 :: enc_str h rest
  end.

Definition dec_opt (b : bytes) : option (option Hash * bytes) :=
  match b with
  | x00 :: rest => Some (None, rest)
  | x01 :: rest =>
      match dec_str rest with
      | Some (h, rest') => Some (Some h, rest')
      | None => None
      end
  | _ => None
  end.

Definition encode (n : Node) : bytes :=
  match n with
  | TreeLeaf k ph => x00 :: enc_str k (enc_str ph [])
  | TreeNode p l r => x01 :: enc_str p (enc_opt l (enc_opt r []))
  end.

Definition decode (b : bytes) : option Node :=
  match b with
  | x00 :: rest =>
      match dec_str rest with
      | Some (k, rest1) =>
          match dec_str rest1 with
          | Some (ph, []) => Some (TreeLeaf k ph)
          | _ => None
          end
      | None => None
      end
  | x01 :: rest =>
      match dec_str rest with
      | Some (p, rest1) =>
          match dec_opt rest1 with
          | Some (l, rest2) =>
              match dec_opt rest2 with
              | Some (r, []) => Some (TreeNode p l r)
              | _ => None
              end
          | None => None
          end
      | None => None
      end
  | _ => None
  end.

End Reference.

Section Hippiepug.

(** The collaborators of [tree.py]: the store's hash function, the codec of
    [hippiepug/pack.py], and the default of [check_integrity] in
    [object_store.get]. *)
Variable hash_object : bytes -> Hash.
Variable encode : Node -> bytes.
Variable decode : bytes -> option Node.
Variable check_integrity_default : bool.

(** Modelled from the spec: [add(bytes) -> Hash] persists the bytes under
    their hash. *)
Definition store_add (b : bytes) (s : store_t) : Hash * store_t :=
  (hash_object b, <[hash_object b := b]> s).

(** Modelled from the spec: [get(hash, checkIntegrity)] returns the stored
    bytes or nothing; with the check on it re-hashes them and fails when the
    digest differs. *)
Definition store_get (s : store_t) (h : Hash) (check_integrity : bool)
  : result (option bytes) :=
  match s !! h with
  | None => Ok None
  | Some b =>
      if check_integrity && negb (bool_decide (hash_object b = h))
      then Raise CorruptionError
      else Ok (Some b)
  end.

(** ** TreeBuilder *)

Record TreeBuilder := mkTreeBuilder { items : items_t }.

(** [TreeBuilder.__init__] *)
Definition TreeBuilder_init : TreeBuilder := mkTreeBuilder [].

(** [TreeBuilder.__setitem__] *)
Definition setitem (lookup_key : string) (value : bytes) (b : TreeBuilder)
  : TreeBuilder :=
  mkTreeBuilder (dict_set lookup_key value (items b)).

(** [TreeBuilder._make_subtree].  The recursion is on [items[:middle]] and
    [items[middle:]]; [fuel] bounds its depth. *)
Fixpoint make_subtree_rec (fuel : nat) (its : items_t) : result (list Node) :=
  match its with
  | [] => Raise ValueError
  | [(key, serialized_obj)] =>
      let value_hash := hash_object serialized_obj in
      Ok [TreeLeaf key value_hash]
  | _ =>
      match fuel with
      | 0 => OutOfFuel
      | S fuel' =>
          let middle := length its / 2 in
          match its !! middle with
          | None => Raise IndexError
          | Some (pivot_prefix, pivot_obj) =>
              let left_partition := take middle its in
              let right_partition := drop middle its in
              left_subtree_nodes ← make_subtree_rec fuel' left_partition;
              right_subtree_nodes ← make_subtree_rec fuel' right_partition;
              left_child ← index0 left_subtree_nodes;
              right_child ← index0 right_subtree_nodes;
              let pivot_prefixes :=
                [pivot_prefix]
                ++ (if left_subtree_nodes is [] then []
                    else [get_node_key left_child])
                ++ (if right_subtree_nodes is [] then []
                    else [get_node_key right_child]) in
              common_prefix ← commonprefix pivot_prefixes;
              let pivot_prefix :=
                slice_to (Nat.max 1 (String.length common_prefix + 1))
                         pivot_prefix in
              let left_hash := hash_object (encode left_child) in
              let right_hash := hash_object (encode right_child) in
              let pivot_node :=
                TreeNode pivot_prefix (Some left_hash) (Some right_hash) in
              Ok ([pivot_node] ++ left_subtree_nodes ++ right_subtree_nodes)
          end
      end
  end.

Definition make_subtree (its : items_t) : result (list Node) :=
  make_subtree_rec (length its) its.

(** ** Tree *)

Record Tree := mkTree { root : Hash; _cache : gmap Hash Node }.

(** [Tree.__init__] with the default [cache=None]. *)
Definition Tree_init (root : Hash) : Tree := mkTree root ∅.

(** [TreeBuilder.commit].  The state is the builder and the object store it
    refers to. *)
Definition commit : St (TreeBuilder * store_t) Tree :=
  w ← st_get;
  let self := w.1 in
  let its := sorted_by_key (items self) in
  nodes ← st_lift (make_subtree its);
  for_each nodes (fun node =>
    let serialized_node := encode node in
    st_modify (fun w => (w.1, (store_add serialized_node w.2).2)));;
  for_each (items self).*2 (fun serialized_obj =>
    st_modify (fun w => (w.1, (store_add serialized_obj w.2).2)));;
  root_node ← st_lift (index0 nodes);
  let root := hash_object (encode root_node) in
  mret (Tree_init root).

(** [Tree.get_node_by_hash].  The state is the tree (its cache); the object
    store [s] is only read. *)
Definition get_node_by_hash (s : store_t) (node_hash : Hash)
  : St Tree (option Node) :=
  self ← st_get;
  match _cache self !! node_hash with
  | Some node => mret (Some node)
  | None =>
      serialized_node ← st_lift (store_get s node_hash true);
      match serialized_node with
      | Some b =>
          node ← st_lift (from_option Ok (Raise DecodeError) (decode b));
          st_modify (fun self =>
            mkTree (root self) (<[node_hash := node]> (_cache self)));;
          mret (Some node)
      | None => mret None
      end
  end.

(** The property [Tree.root_node]. *)
Definition root_node (s : store_t) : St Tree (option Node) :=
  self ← st_get; get_node_by_hash s (root self).

(** [if h: child = self.get_node_by_hash(h)], with [child = None] before. *)
Definition get_child (s : store_t) (h : option Hash) : St Tree (option Node) :=
  match h with
  | Some h => if truthy h then get_node_by_hash s h else mret None
  | None => mret None
  end.

(** The [while] loop of [Tree.get_inclusion_proof]; [fuel] bounds the number
    of iterations.  A [current_node] that is [None] makes
    [current_node.pivot_prefix] raise [AttributeError]. *)
Fixpoint inclusion_loop (fuel : nat) (s : store_t) (lookup_key : string)
    (current_node : option Node) (path_nodes closure_nodes : list Node)
  : St Tree (list Node * list Node) :=
  match current_node with
  | Some (TreeLeaf k ph) => mret (path_nodes ++ [TreeLeaf k ph], closure_nodes)
  | None => st_lift (Raise AttributeError)
  | Some (TreeNode pivot_prefix left_hash right_hash) =>
      match fuel with
      | 0 => st_lift OutOfFuel
      | S fuel' =>
          let path_nodes :=
            path_nodes ++ [TreeNode pivot_prefix left_hash right_hash] in
          left_child ← get_child s left_hash;
          right_child ← get_child s right_hash;
          if str_lt lookup_key pivot_prefix
          then inclusion_loop fuel' s lookup_key left_child path_nodes
                 (closure_nodes ++ option_list right_child)
          else inclusion_loop fuel' s lookup_key right_child path_nodes
                 (closure_nodes ++ option_list left_child)
      end
  end.

(** [Tree.get_inclusion_proof] *)
Definition get_inclusion_proof (fuel : nat) (s : store_t) (lookup_key : string)
  : St Tree (list Node * list Node) :=
  current_node ← root_node s;
  inclusion_loop fuel s lookup_key current_node [] [].

(** [Tree.__getitem__] *)
Definition getitem (fuel : nat) (s : store_t) (lookup_key : string)
  : St Tree (option bytes) :=
  '(path, closure) ← get_inclusion_proof fuel s lookup_key;
  match last path with
  | Some (TreeLeaf k payload_hash) =>
      if decide (k = lookup_key)
      then st_lift (store_get s payload_hash check_integrity_default)
      else st_lift (Raise KeyError)
  | Some (TreeNode _ _ _) => st_lift (Raise AttributeError)
  | None => st_lift (Raise KeyError)
  end.

(** [Tree.__contains__] *)
Definition contains (fuel : nat) (s : store_t) (lookup_key : string)
  : St Tree bool :=
  fun self =>
    match getitem fuel s lookup_key self with
    | (Ok _, self') => (Ok true, self')
    | (Raise KeyError, self') => (Ok false, self')
    | (Raise e, self') => (Raise e, self')
    | (OutOfFuel, self') => (OutOfFuel, self')
    end.




(** ** The tree behind a list of nodes *)

(** The binary tree that [_make_subtree] flattens and that a lookup walks:
    a leaf, or an internal node with the hashes of, and the subtrees under,
    both children. *)
Inductive ltree :=
  | LLeaf (lookup_key : string) (payload_hash : Hash)
  | LNode (pivot_prefix : string) (left_hash right_hash : Hash) (l r : ltree).

(** The node record at the root of a tree. *)
Definition node_of (t : ltree) : Node :=
  match t with
  | LLeaf k ph => TreeLeaf k ph
  | LNode p hl hr _ _ => TreeNode p (Some hl) (Some hr)
  end.

(** Pre-order flattening, root first. *)
Fixpoint flatten (t : ltree) : list Node :=
  match t with
  | LLeaf k ph => [TreeLeaf k ph]
  | LNode p hl hr l r => [TreeNode p (Some hl) (Some hr)] ++ flatten l ++ flatten r
  end.

(** The leaves from left to right. *)
Fixpoint leaves (t : ltree) : list (string * Hash) :=
  match t with
  | LLeaf k ph => [(k, ph)]
  | LNode _ _ _ l r => leaves l ++ leaves r
  end.

(** The number of internal nodes on the longest path from the root. *)
Fixpoint depth (t : ltree) : nat :=
  match t with
  | LLeaf _ _ => 0
  | LNode _ _ _ l r => S (Nat.max (depth l) (depth r))
  end.

(** Every internal node refers to its children by the hash of their
    serialized roots. *)
Fixpoint merkle (t : ltree) : Prop :=
  match t with
  | LLeaf _ _ => True
  | LNode _ hl hr l r =>
      hl = hash_object (encode (node_of l)) /\
      hr = hash_object (encode (node_of r)) /\
      merkle l /\ merkle r
  end.

(** The prefix ordering invariant: at every internal node the keys on the
    left are smaller than the pivot prefix and the keys on the right are
    not. *)
Fixpoint prefix_ordered (t : ltree) : bool :=
  match t with
  | LLeaf _ _ => true
  | LNode p _ _ l r =>
      forallb (fun kv => str_lt kv.1 p) (leaves l)
      && forallb (fun kv => negb (str_lt kv.1 p)) (leaves r)
      && prefix_ordered l && prefix_ordered r
  end.

(** The right half of the invariant alone. *)
Fixpoint right_ordered (t : ltree) : Prop :=
  match t with
  | LLeaf _ _ => True
  | LNode p _ _ l r =>
      (forall k, k ∈ (leaves r).*1 -> str_lt k p = false) /\
      right_ordered l /\ right_ordered r
  end.

(** Every pivot prefix is cut from the first key of the right subtree. *)
Fixpoint pivots_cut (t : ltree) : Prop :=
  match t with
  | LLeaf _ _ => True
  | LNode p _ _ l r =>
      (exists k, head (leaves r).*1 = Some k /\ is_prefix p k = true) /\
      pivots_cut l /\ pivots_cut r
  end.

(** What a hash resolves to through a cache [c] and the store [s]: the
    result of [get_node_by_hash], without the cache update. *)
Definition resolve (s : store_t) (c : gmap Hash Node) (h : Hash)
  : result (option Node) :=
  match c !! h with
  | Some node => Ok (Some node)
  | None =>
      b ← store_get s h true;
      match b with
      | Some b => node ← from_option Ok (Raise DecodeError) (decode b); Ok (Some node)
      | None => Ok None
      end
  end.

(** The tree [t] is readable below its root: the child hashes of every
    internal node are non-empty and resolve to the roots of its subtrees. *)
Fixpoint readable (s : store_t) (c : gmap Hash Node) (t : ltree) : Prop :=
  match t with
  | LLeaf _ _ => True
  | LNode _ hl hr l r =>
      truthy hl = true /\ truthy hr = true /\
      resolve s c hl = Ok (Some (node_of l)) /\
      resolve s c hr = Ok (Some (node_of r)) /\
      readable s c l /\ readable s c r
  end.

(** The proof traversal as the specification words it: from the root down,
    at an internal node go left when the key is below the pivot prefix and
    record the right child, else go right and record the left child; stop at
    a leaf.  The result is the pair of the path and the closure. *)
Fixpoint spec_inclusion_proof (t : ltree) (lookup_key : string)
  : list Node * list Node :=
  match t with
  | LLeaf k ph => ([TreeLeaf k ph], [])
  | LNode p hl hr l r =>
      if str_lt lookup_key p
      then let '(path, closure) := spec_inclusion_proof l lookup_key in
           (node_of t :: path, node_of r :: closure)
      else let '(path, closure) := spec_inclusion_proof r lookup_key in
           (node_of t :: path, node_of l :: closure)
  end.

(** The leaf at which the traversal stops. *)
Fixpoint terminal_leaf (t : ltree) (lookup_key : string) : string * Hash :=
  match t with
  | LLeaf k ph => (k, ph)
  | LNode p _ _ l r =>
      if str_lt lookup_key p then terminal_leaf l lookup_key
      else terminal_leaf r lookup_key
  end.

(** The part of [_make_subtree] after the two recursive calls, given their
    outcomes. *)
Definition assemble (its : items_t) (left right : result (list Node))
  : result (list Node) :=
  match its !! (length its / 2) with
  | None => Raise IndexError
  | Some (pivot_prefix, pivot_obj) =>
      left_subtree_nodes ← left;
      right_subtree_nodes ← right;
      left_child ← index0 left_subtree_nodes;
      right_child ← index0 right_subtree_nodes;
      let pivot_prefixes :=
        [pivot_prefix]
        ++ (if left_subtree_nodes is [] then []
            else [get_node_key left_child])
        ++ (if right_subtree_nodes is [] then []
            else [get_node_key right_child]) in
      common_prefix ← commonprefix pivot_prefixes;
      let pivot_prefix :=
        slice_to (Nat.max 1 (String.length common_prefix + 1))
                 pivot_prefix in
      let left_hash := hash_object (encode left_child) in
      let right_hash := hash_object (encode right_child) in
      let pivot_node :=
        TreeNode pivot_prefix (Some left_hash) (Some right_hash) in
      Ok ([pivot_node] ++ left_subtree_nodes ++ right_subtree_nodes)
  end.

(** The store after [object_store.add] on each of [bs] in turn. *)
Definition add_all (bs : list bytes) (s : store_t) : store_t :=
  foldl (fun s b => (store_add b s).2) s bs.

(** A builder with three keys, two of which share their first character:
    [builder['aa'] = b'1'; builder['ab'] = b'2'; builder['b'] = b'3']. *)
Definition shared_prefix_builder : TreeBuilder :=
  setitem "b" ["3"%byte]
    (setitem "ab" ["2"%byte]
       (setitem "aa" ["1"%byte] TreeBuilder_init)).

(** The tree [_make_subtree] builds for it. *)
Definition shared_prefix_tree : ltree :=
  let leaf_aa := LLeaf "aa" (hash_object ["1"%byte]) in
  let leaf_ab := LLeaf "ab" (hash_object ["2"%byte]) in
  let leaf_b := LLeaf "b" (hash_object ["3"%byte]) in
  let right :=
    LNode "b" (hash_object (encode (node_of leaf_ab)))
              (hash_object (encode (node_of leaf_b))) leaf_ab leaf_b in
  LNode "a" (hash_object (encode (node_of leaf_aa)))
            (hash_object (encode (node_of right))) leaf_aa right.

(** The leaf records of a list of nodes, in order. *)
Definition leaf_of (n : Node) : option (string * Hash) :=
  match n with
  | TreeLeaf k ph => Some (k, ph)
  | TreeNode _ _ _ => None
  end.

(** The path and the closure of a proof are linked to the hash [h]: the
    first path node hashes to [h], every internal node on the path names the
    next path node on the side the key takes and the next closure node on
    the other side, and the path ends in a leaf when the closure is used
    up. *)
Fixpoint proof_links (h : Hash) (lookup_key : string)
    (path closure : list Node) : Prop :=
  match path with
  | [] => False
  | n :: path' =>
      h = hash_object (encode n) /\
      match n with
      | TreeLeaf _ _ => path' = [] /\ closure = []
      | TreeNode p lh rh =>
          match closure with
          | [] => False
          | c :: closure' =>
              if str_lt lookup_key p
              then rh = Some (hash_object (encode c)) /\
                   exists hl, lh = Some hl /\
                     proof_links hl lookup_key path' closure'
              else lh = Some (hash_object (encode c)) /\
                   exists hr, rh = Some hr /\
                     proof_links hr lookup_key path' closure'
          end
      end
  end.

(** A builder after the assignments [builder[k] = v] for each [(k, v)] of a
    list, in order. *)
Definition staged (l : list (string * bytes)) : TreeBuilder :=
  foldl (fun b kv => setitem kv.1 kv.2 b) TreeBuilder_init l.

(** What a child reference resolves to: nothing when the hash is absent or
    empty, else what the hash resolves to. *)
Definition resolve_child (s : store_t) (c : gmap Hash Node) (h : option Hash)
  : result (option Node) :=
  match h with
  | Some h => if truthy h then resolve s c h else Ok None
  | None => Ok None
  end.

(** The cache [c] holds what a lookup of [lookup_key] in [t] fetches below
    the root: both children of every internal node on the way down. *)
Fixpoint cached_along (c : gmap Hash Node) (t : ltree) (lookup_key : string)
  : Prop :=
  match t with
  | LLeaf _ _ => True
  | LNode p hl hr l r =>
      truthy hl = true /\ truthy hr = true /\
      c !! hl = Some (node_of l) /\ c !! hr = Some (node_of r) /\
      if str_lt lookup_key p then cached_along c l lookup_key
      else cached_along c r lookup_key
  end.

(** The builder of the class docstring:
    [builder['foo'] = b'bar'; builder['baz'] = b'zez']. *)
Definition doctest_builder : TreeBuilder :=
  setitem "baz" ["z"%byte; "e"%byte; "z"%byte]
    (setitem "foo" ["b"%byte; "a"%byte; "r"%byte] TreeBuilder_init).

(** The tree [_make_subtree] builds for it. *)
Definition doctest_tree : ltree :=
  let leaf_baz := LLeaf "baz" (hash_object ["z"%byte; "e"%byte; "z"%byte]) in
  let leaf_foo := LLeaf "foo" (hash_object ["b"%byte; "a"%byte; "r"%byte]) in
  LNode "f" (hash_object (encode (node_of leaf_baz)))
            (hash_object (encode (node_of leaf_foo))) leaf_baz leaf_foo.

(** ** The order on keys *)

Section StringOrder.

Lemma ascii_compare_refl c : Ascii.compare c c = Eq.
Proof. unfold Ascii.compare. apply N.compare_refl. Qed.

Lemma str_lt_cons c d a b :
  str_lt (String c a) (String d b) =
  match Ascii.compare c d with Eq => str_lt a b | Lt => true | Gt => false end.
Proof. unfold str_lt, String.ltb. simpl. by destruct (Ascii.compare c d). Qed.

Lemma str_lt_nil_r a : str_lt a "" = false.
Proof. by destruct a. Qed.

Lemma str_lt_leb a b : str_lt b a = false <-> String.le a b.
Proof.
  unfold str_lt, String.le, String.ltb, String.leb.
  rewrite (String.compare_antisym a b).
  destruct (String.compare b a); simpl; intuition discriminate.
Qed.

Lemma str_lt_irrefl a : str_lt a a = false.
Proof. apply str_lt_leb. reflexivity. Qed.

Lemma str_le_trans a b c :
  str_lt b a = false -> str_lt c b = false -> str_lt c a = false.
Proof. rewrite !str_lt_leb. intros. by etrans. Qed.

Lemma str_le_antisym a b :
  str_lt a b = false -> str_lt b a = false -> a = b.
Proof. rewrite !str_lt_leb. intros. by apply (anti_symm String.le). Qed.

Lemma str_lt_asym a b : str_lt a b = true -> str_lt b a = false.
Proof.
  intros H. destruct (total String.le a b) as [Hle|Hle].
  - by apply str_lt_leb.
  - apply str_lt_leb in Hle. congruence.
Qed.

Lemma str_lt_le_trans a b c :
  str_lt a b = true -> str_lt c b = false -> str_lt a c = true.
Proof.
  intros Hab Hbc. destruct (str_lt a c) eqn:Hac; [done|].
  assert (str_lt a b = false); [|congruence].
  eapply str_le_trans; eauto.
Qed.

Lemma is_prefix_refl s : is_prefix s s = true.
Proof. induction s; simpl; [done|]. by rewrite decide_True. Qed.

Lemma is_prefix_nil_r p : is_prefix p "" = true -> p = "".
Proof. by destruct p. Qed.

Lemma is_prefix_cons c p d s :
  is_prefix (String c p) (String d s) = true <-> c = d /\ is_prefix p s = true.
Proof. simpl. destruct (decide (c = d)); naive_solver. Qed.

Lemma is_prefix_trans p q s :
  is_prefix p q = true -> is_prefix q s = true -> is_prefix p s = true.
Proof.
  revert q s. induction p as [|c p IH]; intros [|d q] [|e s]; try done.
  rewrite !is_prefix_cons. naive_solver.
Qed.

Lemma slice_to_prefix n s : is_prefix (slice_to n s) s = true.
Proof.
  revert s. induction n as [|n IH]; intros [|c s]; simpl; try done.
  by rewrite decide_True.
Qed.

Lemma slice_to_length n s :
  String.length (slice_to n s) = Nat.min n (String.length s).
Proof. revert s. induction n; intros [|c s]; simpl; auto. Qed.

(** A prefix never compares greater than the string it is cut from. *)
Lemma is_prefix_le p s : is_prefix p s = true -> str_lt s p = false.
Proof.
  revert s. induction p as [|c p IH]; intros s Hp.
  - apply str_lt_nil_r.
  - destruct s as [|d s]; [done|]. apply is_prefix_cons in Hp as [-> Hp].
    rewrite str_lt_cons, ascii_compare_refl. auto.
Qed.

Lemma str_min_spec x m :
  str_min x m ∈ x :: m /\ forall y, y ∈ x :: m -> str_lt y (str_min x m) = false.
Proof.
  unfold str_min. revert x. induction m as [|z m IH]; intros x; simpl.
  - split; [set_solver|]. intros y ->%list_elem_of_singleton.
    apply str_lt_irrefl.
  - destruct (str_lt z x) eqn:Hzx.
    + destruct (IH z) as [Hin Hle]. split; [set_solver|].
      intros y [->|Hy]%elem_of_cons; [|by apply Hle].
      apply (str_le_trans _ z); [apply Hle; set_solver|]. by apply str_lt_asym.
    + destruct (IH x) as [Hin Hle]. split; [set_solver|].
      intros y [->|[->|Hy]%elem_of_cons]%elem_of_cons.
      * apply Hle; set_solver.
      * apply (str_le_trans _ x); [apply Hle; set_solver|done].
      * apply Hle; set_solver.
Qed.

Lemma str_max_spec x m :
  str_max x m ∈ x :: m /\ forall y, y ∈ x :: m -> str_lt (str_max x m) y = false.
Proof.
  unfold str_max. revert x. induction m as [|z m IH]; intros x; simpl.
  - split; [set_solver|]. intros y ->%list_elem_of_singleton.
    apply str_lt_irrefl.
  - destruct (str_lt x z) eqn:Hxz.
    + destruct (IH z) as [Hin Hle]. split; [set_solver|].
      intros y [->|Hy]%elem_of_cons; [|by apply Hle].
      apply (str_le_trans _ z); [|apply Hle; set_solver]. by apply str_lt_asym.
    + destruct (IH x) as [Hin Hle]. split; [set_solver|].
      intros y [->|[->|Hy]%elem_of_cons]%elem_of_cons.
      * apply Hle; set_solver.
      * apply (str_le_trans _ x); [done|apply Hle; set_solver].
      * apply Hle; set_solver.
Qed.

Lemma commonprefix_loop_spec s1 s2 :
  str_lt s2 s1 = false ->
  exists cp, commonprefix_loop s1 s2 = Ok cp /\
    is_prefix cp s1 = true /\ is_prefix cp s2 = true /\
    (forall x, str_lt x s1 = false -> str_lt s2 x = false ->
               is_prefix cp x = true) /\
    (forall q, is_prefix q s1 = true -> is_prefix q s2 = true ->
               is_prefix q cp = true).
Proof.
  revert s2. induction s1 as [|c s1 IH]; intros s2 Hle.
  { exists "". simpl. repeat split; auto. }
  destruct s2 as [|d s2]; [done|].
  rewrite str_lt_cons in Hle. simpl.
  destruct (decide (c = d)) as [->|Hcd].
  - rewrite ascii_compare_refl in Hle.
    destruct (IH _ Hle) as (cp & -> & H1 & H2 & Hbetween & Hmax).
    exists (String d cp). simpl. rewrite !decide_True by done.
    repeat split; auto.
    + intros [|e x] Hx1 Hx2; [done|].
      rewrite str_lt_cons in Hx1, Hx2.
      destruct (Ascii.compare e d) eqn:He1; [|done|].
      * apply Ascii.compare_eq_iff in He1 as ->.
        rewrite ascii_compare_refl in Hx2.
        rewrite decide_True by done. auto.
      * rewrite Ascii.compare_antisym, He1 in Hx2. done.
    + intros [|e q] Hq1 Hq2; [done|].
      apply is_prefix_cons in Hq1 as [-> Hq1].
      apply is_prefix_cons in Hq2 as [_ Hq2].
      apply is_prefix_cons. auto.
  - exists "". repeat split; auto.
    intros [|e q] Hq1 Hq2; [done|].
    apply is_prefix_cons in Hq1 as [-> _].
    apply is_prefix_cons in Hq2 as [-> _]. done.
Qed.

(** [os.path.commonprefix] never raises, and computes the longest common
    prefix of a non-empty sequence. *)
Lemma commonprefix_spec x m :
  exists cp, commonprefix (x :: m) = Ok cp /\ is_lcp cp (x :: m).
Proof.
  destruct (str_min_spec x m) as [Hmin_in Hmin].
  destruct (str_max_spec x m) as [Hmax_in Hmax].
  destruct (commonprefix_loop_spec (str_min x m) (str_max x m))
    as (cp & Hcp & H1 & H2 & Hbetween & Hlongest).
  { by apply Hmax. }
  exists cp. split; [done|]. split.
  - intros y Hy. apply Hbetween; auto.
  - intros q Hq. apply Hlongest; auto.
Qed.

End StringOrder.

(** ** Sorting the staged items *)

Section Sorting.

#[local] Instance key_le_trans : Transitive key_le.
Proof. intros x y z. unfold key_le. apply str_le_trans. Qed.

Lemma insert_sorted_perm x l : insert_sorted x l ≡ₚ x :: l.
Proof.
  induction l as [|y l IH]; simpl; [done|].
  destruct (str_lt y.1 x.1); [|done].
  rewrite IH. apply Permutation_swap.
Qed.

Lemma sorted_by_key_perm l : sorted_by_key l ≡ₚ l.
Proof.
  induction l as [|x l IH]; simpl; [done|].
  by rewrite insert_sorted_perm, IH.
Qed.

Lemma insert_sorted_sorted x l :
  StronglySorted key_le l -> StronglySorted key_le (insert_sorted x l).
Proof.
  induction 1 as [|y l Hl IH Hy]; simpl.
  { repeat constructor. }
  destruct (str_lt y.1 x.1) eqn:Hyx.
  - constructor; [done|].
    rewrite insert_sorted_perm. constructor; [|done].
    unfold key_le. by apply str_lt_asym.
  - constructor; [by constructor|].
    constructor; [done|].
    eapply Forall_impl; [exact Hy|]. intros z Hz. by trans y.
Qed.

Lemma sorted_by_key_sorted l : StronglySorted key_le (sorted_by_key l).
Proof.
  induction l; simpl; [constructor|]. by apply insert_sorted_sorted.
Qed.

Lemma NoDup_keys_functional (l : items_t) k v1 v2 :
  NoDup l.*1 -> (k, v1) ∈ l -> (k, v2) ∈ l -> v1 = v2.
Proof.
  induction l as [|[k' v'] l IH]; simpl; [by intros _ ?%elem_of_nil|].
  intros [Hk Hnd]%NoDup_cons [H1|H1]%elem_of_cons [H2|H2]%elem_of_cons;
    simplify_eq; auto.
  - destruct Hk. apply list_elem_of_fmap. by eexists (_, v2).
  - destruct Hk. apply list_elem_of_fmap. by eexists (_, v1).
Qed.

(** The sorted sequence depends on the set of staged pairs only, not on the
    order in which they were inserted. *)
Lemma sorted_by_key_unique l1 l2 :
  NoDup l1.*1 -> l1 ≡ₚ l2 -> sorted_by_key l1 = sorted_by_key l2.
Proof.
  intros Hnd Hperm.
  apply (StronglySorted_unique_strong key_le);
    [|apply sorted_by_key_sorted..|by rewrite !sorted_by_key_perm].
  intros [k1 v1] [k2 v2] H1 H2 Hle1 Hle2. unfold key_le in *. simpl in *.
  assert (k1 = k2) as -> by by apply str_le_antisym.
  f_equal. apply (NoDup_keys_functional l1 k2); [done|..].
  - by rewrite <-(sorted_by_key_perm l1).
  - by rewrite Hperm, <-(sorted_by_key_perm l2).
Qed.

Lemma sorted_by_key_length l : length (sorted_by_key l) = length l.
Proof. by rewrite sorted_by_key_perm. Qed.

Lemma dict_set_keys k v d x :
  x ∈ (dict_set k v d).*1 -> x = k \/ x ∈ d.*1.
Proof using Type.
  induction d as [|[k2 v2] d IH]; simpl.
  { intros Hx. apply list_elem_of_singleton in Hx. by left. }
  destruct (decide (k2 = k)) as [->|Hne]; simpl.
  - intros [->|Hx]%elem_of_cons; [by left|]. right. by right.
  - intros [->|Hx]%elem_of_cons; [right; by left|].
    destruct (IH Hx) as [->|Hin]; [by left|]. right. by right.
Qed.

Lemma dict_set_keys_NoDup k v d : NoDup d.*1 -> NoDup (dict_set k v d).*1.
Proof using Type.
  induction d as [|[k' v'] d IH]; simpl.
  { intros _. apply NoDup_singleton. }
  intros [Hk Hnd]%NoDup_cons. destruct (decide (k' = k)) as [->|Hne]; simpl.
  - by apply NoDup_cons.
  - apply NoDup_cons. split; [|auto].
    intros [->|Hin]%dict_set_keys; done.
Qed.

End Sorting.

(** ** The recursive construction *)

Section Construction.

Lemma make_subtree_rec_S fuel its :
  2 <= length its ->
  make_subtree_rec (S fuel) its =
  assemble its (make_subtree_rec fuel (take (length its / 2) its))
               (make_subtree_rec fuel (drop (length its / 2) its)).
Proof.
  destruct its as [|[k1 v1] [|[k2 v2] its]]; simpl; intros; try lia.
  reflexivity.
Qed.

Lemma half_bounds n : 2 <= n -> 1 <= n / 2 /\ n / 2 < n.
Proof.
  intros Hn. split.
  - apply (Nat.div_le_lower_bound n 2 1); lia.
  - apply Nat.div_lt; lia.
Qed.

(** Fuel beyond the length of the list changes nothing. *)
Lemma make_subtree_rec_fuel f1 f2 its :
  length its <= f1 -> length its <= f2 ->
  make_subtree_rec f1 its = make_subtree_rec f2 its.
Proof.
  revert f2 its. induction f1 as [|f1 IH]; intros f2 its H1 H2.
  { destruct its as [|[k v] [|? ?]]; simpl in *; try lia; by destruct f2. }
  destruct its as [|[k v] [|kv2 its]].
  - by destruct f2.
  - by destruct f2.
  - destruct f2 as [|f2]; [simpl in *; lia|].
    set (l := (k, v) :: kv2 :: its) in *.
    assert (2 <= length l) as Hlen by (simpl; lia).
    rewrite !make_subtree_rec_S by done.
    destruct (half_bounds _ Hlen) as [Hlo Hhi].
    rewrite (IH f2 (take _ l)), (IH f2 (drop _ l)); [done|..];
      rewrite ?length_take, ?length_drop; lia.
Qed.

(** The defining equations of [_make_subtree], as the source has them. *)
Lemma make_subtree_nil : make_subtree [] = Raise ValueError.
Proof. reflexivity. Qed.

Lemma make_subtree_single key serialized_obj :
  make_subtree [(key, serialized_obj)] =
  Ok [TreeLeaf key (hash_object serialized_obj)].
Proof. reflexivity. Qed.

Lemma make_subtree_eq its :
  2 <= length its ->
  make_subtree its =
  assemble its (make_subtree (take (length its / 2) its))
               (make_subtree (drop (length its / 2) its)).
Proof.
  intros Hlen. unfold make_subtree.
  destruct (length its) as [|n] eqn:Hn; [lia|].
  rewrite make_subtree_rec_S by lia. rewrite Hn.
  destruct (half_bounds (S n)) as [Hlo Hhi]; [lia|].
  f_equal; apply make_subtree_rec_fuel;
    rewrite ?length_take, ?length_drop; lia.
Qed.

Lemma assemble_ok its k v lc l rc r :
  its !! (length its / 2) = Some (k, v) ->
  exists cp,
    is_lcp cp [k; get_node_key lc; get_node_key rc] /\
    assemble its (Ok (lc :: l)) (Ok (rc :: r)) =
    Ok (TreeNode (slice_to (Nat.max 1 (String.length cp + 1)) k)
                 (Some (hash_object (encode lc)))
                 (Some (hash_object (encode rc)))
        :: (lc :: l) ++ (rc :: r)).
Proof.
  intros Hmid. unfold assemble. rewrite Hmid. cbn -[commonprefix].
  destruct (commonprefix_spec k [get_node_key lc; get_node_key rc])
    as (cp & Hcp & Hlcp).
  exists cp. split; [done|]. by rewrite Hcp.
Qed.

Lemma flatten_head t : flatten t = node_of t :: tail (flatten t).
Proof. by destruct t. Qed.

Lemma flatten_depth t : depth t < length (leaves t).
Proof.
  induction t as [|p hl hr l IHl r IHr]; simpl; [lia|].
  rewrite length_app. lia.
Qed.

Lemma leaves_nonempty t : leaves t <> [].
Proof. pose proof (flatten_depth t). destruct (leaves t); [simpl in *; lia|done]. Qed.

(** [_make_subtree] returns on every non-empty list, and what it returns is
    the pre-order flattening of a hash-linked tree whose leaves are the
    items, in order. *)
Lemma make_subtree_tree its :
  its <> [] ->
  exists t, make_subtree its = Ok (flatten t) /\ merkle t /\
    leaves t = ((fun kv => (kv.1, hash_object kv.2)) <$> its) /\
    pivots_cut t.
Proof.
  remember (length its) as n eqn:Hn. revert its Hn.
  induction n as [n IH] using lt_wf_ind. intros its Hn Hne.
  destruct its as [|[k v] [|kv2 its']]; [done|..].
  { exists (LLeaf k (hash_object v)). by rewrite make_subtree_single. }
  remember ((k, v) :: kv2 :: its') as l eqn:Hl0.
  assert (2 <= length l) as Hlen by (subst l; simpl; lia).
  clear Hl0 Hne. subst n.
  destruct (half_bounds _ Hlen) as [Hlo Hhi].
  rewrite make_subtree_eq by done.
  set (m := length l / 2) in *.
  assert (length (take m l) = m) as Htake by (rewrite length_take; lia).
  assert (length (drop m l) = length l - m) as Hdrop by apply length_drop.
  destruct (IH m Hhi (take m l)) as (tl & Hl & Hml & Hll & Hpl); [done|..].
  { intros Heq. rewrite Heq in Htake. simpl in Htake. lia. }
  destruct (IH (length l - m)) with (its := drop m l)
    as (tr & Hr & Hmr & Hlr & Hpr); [lia|done|..].
  { intros Heq. rewrite Heq in Hdrop. simpl in Hdrop. lia. }
  destruct (lookup_lt_is_Some_2 l m) as [[mk mv] Hmid]; [lia|].
  destruct (assemble_ok l mk mv (node_of tl) (tail (flatten tl))
              (node_of tr) (tail (flatten tr)) Hmid) as (cp & _ & Hasm).
  rewrite <-!flatten_head in Hasm. rewrite Hl, Hr, Hasm.
  eexists (LNode _ _ _ tl tr). simpl. split; [reflexivity|].
  split; [done|]. split.
  { by rewrite Hll, Hlr, <-fmap_app, take_drop. }
  split_and!; [|done..]. exists mk. split; [|apply slice_to_prefix].
  by rewrite Hlr, (drop_S _ _ _ Hmid).
Qed.

(** One level of the recursion on a list of two or more items. *)
Lemma make_subtree_step its :
  2 <= length its ->
  exists k v tl tr cp,
    its !! (length its / 2) = Some (k, v) /\
    make_subtree (take (length its / 2) its) = Ok (flatten tl) /\
    make_subtree (drop (length its / 2) its) = Ok (flatten tr) /\
    is_lcp cp [k; get_node_key (node_of tl); get_node_key (node_of tr)] /\
    make_subtree its =
      Ok (flatten (LNode (slice_to (Nat.max 1 (String.length cp + 1)) k)
                         (hash_object (encode (node_of tl)))
                         (hash_object (encode (node_of tr))) tl tr)).
Proof.
  intros Hlen. destruct (half_bounds _ Hlen) as [Hlo Hhi].
  set (m := length its / 2) in *.
  assert (length (take m its) = m) as Htake by (rewrite length_take; lia).
  assert (length (drop m its) = length its - m) as Hdrop by apply length_drop.
  destruct (make_subtree_tree (take m its)) as (tl & Hl & _).
  { intros Heq. rewrite Heq in Htake. simpl in Htake. lia. }
  destruct (make_subtree_tree (drop m its)) as (tr & Hr & _).
  { intros Heq. rewrite Heq in Hdrop. simpl in Hdrop. lia. }
  destruct (lookup_lt_is_Some_2 its m) as [[k v] Hmid]; [lia|].
  destruct (assemble_ok its k v (node_of tl) (tail (flatten tl))
              (node_of tr) (tail (flatten tr)) Hmid) as (cp & Hcp & Hasm).
  rewrite <-!flatten_head in Hasm.
  exists k, v, tl, tr, cp. repeat split; try done; try apply Hcp.
  rewrite make_subtree_eq by done. fold m. by rewrite Hl, Hr, Hasm.
Qed.

Lemma make_subtree_Ok_nonempty its nodes :
  make_subtree its = Ok nodes -> its <> [].
Proof. by intros H ->. Qed.

Lemma merkle_flatten_children t n :
  merkle t -> n ∈ flatten t ->
  match n with
  | TreeLeaf _ _ => True
  | TreeNode _ lh rh =>
      exists l r, l ∈ flatten t /\ r ∈ flatten t /\
        lh = Some (hash_object (encode l)) /\
        rh = Some (hash_object (encode r))
  end.
Proof.
  induction t as [|p hl hr l IHl r IHr]; simpl.
  { by intros _ ->%list_elem_of_singleton. }
  intros (-> & -> & Hml & Hmr) [->|[Hn|Hn]%elem_of_app]%elem_of_cons.
  - exists (node_of l), (node_of r). split_and!; [| |done..].
    + right. apply elem_of_app. left. rewrite flatten_head. left.
    + right. apply elem_of_app. right. rewrite flatten_head. left.
  - specialize (IHl Hml Hn). destruct n; [done|].
    destruct IHl as (a & b & Ha & Hb & ? & ?). exists a, b.
    split_and!; [right; apply elem_of_app; by left..|done|done].
  - specialize (IHr Hmr Hn). destruct n; [done|].
    destruct IHr as (a & b & Ha & Hb & ? & ?). exists a, b.
    split_and!; [right; apply elem_of_app; by right..|done|done].
Qed.

Lemma pivots_cut_right_ordered t :
  pivots_cut t ->
  StronglySorted (fun a b => str_lt b a = false) (leaves t).*1 ->
  right_ordered t.
Proof.
  induction t as [k ph|p hl hr l IHl r IHr]; simpl; [done|].
  intros ((k0 & Hhd & Hpre) & Hcl & Hcr).
  rewrite fmap_app. intros (_ & Hsl & Hsr)%StronglySorted_app.
  split_and!; auto.
  intros k Hk. destruct ((leaves r).*1) as [|k1 ks]; [done|].
  injection Hhd as ->. apply is_prefix_le in Hpre.
  apply elem_of_cons in Hk as [->|Hk]; [done|].
  apply StronglySorted_cons in Hsr as [Hall _].
  rewrite Forall_forall in Hall. eapply str_le_trans; [exact Hpre|].
  by apply Hall.
Qed.

(** X17.  The right half of the prefix ordering invariant holds in every
    tree built from the sorted items: no key under a right child compares
    below the pivot prefix. *)
Lemma make_subtree_right_ordered its :
  its <> [] ->
  exists t, make_subtree (sorted_by_key its) = Ok (flatten t) /\
            right_ordered t.
Proof.
  intros Hne.
  destruct (make_subtree_tree (sorted_by_key its))
    as (t & Hmk & _ & Hleaves & Hcut).
  { intros Hs. apply Hne, length_zero_iff_nil.
    by rewrite <-sorted_by_key_length, Hs. }
  exists t. split; [done|]. apply pivots_cut_right_ordered; [done|].
  rewrite Hleaves, <-list_fmap_compose.
  eapply (StronglySorted_fmap _ key_le); [|apply sorted_by_key_sorted].
  by intros [k1 v1] [k2 v2].
Qed.

(** C3.  When [_make_subtree] builds an internal node for a list of two or
    more items, its pivot prefix is the midpoint key cut to
    [max(1, len(common_prefix) + 1)] characters, where [common_prefix] is the
    longest common prefix of the midpoint key and the keys of the two child
    roots (a leaf's lookup key, an internal node's pivot prefix). *)
Theorem pivot_prefix_is_truncated_midpoint its :
  2 <= length its ->
  exists mid_key mid_obj left_root left_rest right_root right_rest
         common_prefix left_hash right_hash,
    its !! (length its / 2) = Some (mid_key, mid_obj) /\
    make_subtree (take (length its / 2) its) = Ok (left_root :: left_rest) /\
    make_subtree (drop (length its / 2) its) = Ok (right_root :: right_rest) /\
    is_lcp common_prefix
      [mid_key; get_node_key left_root; get_node_key right_root] /\
    make_subtree its =
      Ok (TreeNode
            (slice_to (Nat.max 1 (String.length common_prefix + 1)) mid_key)
            left_hash right_hash
          :: (left_root :: left_rest) ++ (right_root :: right_rest)).
Proof.
  intros Hlen.
  destruct (make_subtree_step its Hlen)
    as (k & v & tl & tr & cp & Hmid & Hl & Hr & Hcp & Hres).
  exists k, v, (node_of tl), (tail (flatten tl)),
         (node_of tr), (tail (flatten tr)), cp.
  eexists _, _. rewrite <-!flatten_head. split_and!; try done.
Qed.

(** C4.  On a list of two or more items [_make_subtree] splits at
    [m = len // 2]: it recurses on [items[:m]], which stops short of the
    pivot item [items[m]], and on [items[m:]], which starts with it and so
    is never empty, and returns the internal node followed by the nodes of
    the left and then of the right recursion: the pre-order flattening of
    the subtree, its root first. *)
Theorem make_subtree_splits_at_midpoint its :
  2 <= length its ->
  exists pivot_item left_nodes right_nodes tl tr pivot,
    its !! (length its / 2) = Some pivot_item /\
    length (take (length its / 2) its) = length its / 2 /\
    drop (length its / 2) its = pivot_item :: drop (S (length its / 2)) its /\
    drop (length its / 2) its <> [] /\
    make_subtree (take (length its / 2) its) = Ok left_nodes /\
    make_subtree (drop (length its / 2) its) = Ok right_nodes /\
    left_nodes = flatten tl /\ right_nodes = flatten tr /\
    make_subtree its =
      Ok ([TreeNode pivot (Some (hash_object (encode (node_of tl))))
                          (Some (hash_object (encode (node_of tr))))]
          ++ left_nodes ++ right_nodes) /\
    [TreeNode pivot (Some (hash_object (encode (node_of tl))))
                    (Some (hash_object (encode (node_of tr))))]
      ++ left_nodes ++ right_nodes
    = flatten (LNode pivot (hash_object (encode (node_of tl)))
                     (hash_object (encode (node_of tr))) tl tr).
Proof.
  intros Hlen.
  destruct (make_subtree_step its Hlen)
    as (k & v & tl & tr & cp & Hmid & Hl & Hr & Hcp & Hres).
  destruct (half_bounds _ Hlen) as [Hlo Hhi].
  exists (k, v), (flatten tl), (flatten tr), tl, tr. eexists.
  split_and!; try done.
  all: try (rewrite length_take; lia).
  all: try (by rewrite (drop_S _ _ _ Hmid)).
Qed.

(** C9.  Every internal node that [_make_subtree] creates carries both child
    hashes, each the content hash of a node of the same list; a single item
    yields a leaf and no internal node. *)
Theorem internal_nodes_have_both_hashes its nodes :
  make_subtree its = Ok nodes ->
  (forall n, n ∈ nodes ->
     match n with
     | TreeLeaf _ _ => True
     | TreeNode _ left_hash right_hash =>
         exists l r, l ∈ nodes /\ r ∈ nodes /\
           left_hash = Some (hash_object (encode l)) /\
           right_hash = Some (hash_object (encode r))
     end) /\
  (forall key obj, its = [(key, obj)] ->
     nodes = [TreeLeaf key (hash_object obj)]).
Proof.
  intros Hok. split.
  - destruct (make_subtree_tree its) as (t & Ht & Hm & _).
    { by eapply make_subtree_Ok_nonempty. }
    rewrite Hok in Ht. injection Ht as ->.
    intros n Hn. by apply merkle_flatten_children.
  - intros key obj ->. rewrite make_subtree_single in Hok. by injection Hok.
Qed.

End Construction.

(** ** Commit *)

Section Commit.

Lemma for_each_modify {S A} (g : A -> S -> S) (l : list A) (w : S) :
  for_each l (fun x => st_modify (g x)) w = (Ok tt, foldl (fun w x => g x w) w l).
Proof.
  revert w. induction l as [|x l IH]; intros w; [done|].
  cbn [for_each foldl]. unfold mbind, St_bind, st_modify at 1. by rewrite IH.
Qed.

Lemma foldl_store_add {A} (f : A -> list byte) (l : list A)
    (b : TreeBuilder) (s : store_t) :
  foldl (fun (w : TreeBuilder * store_t) x => (w.1, (store_add (f x) w.2).2))
        (b, s) l
  = (b, add_all (f <$> l) s).
Proof.
  revert s. induction l as [|x l IH]; intros s; [done|]. simpl. by rewrite IH.
Qed.

(** What [commit] does once [_make_subtree] has returned. *)
Lemma commit_eq b s n nodes :
  make_subtree (sorted_by_key (items b)) = Ok (n :: nodes) ->
  commit (b, s) =
    (Ok (Tree_init (hash_object (encode n))),
     (b, add_all (items b).*2 (add_all (encode <$> n :: nodes) s))).
Proof.
  intros Hmk. unfold commit.
  unfold mbind at 1, St_bind at 1, st_get at 1. cbn [fst snd].
  unfold mbind at 1, St_bind at 1, st_lift at 1. rewrite Hmk.
  unfold mbind at 1, St_bind at 1.
  rewrite (for_each_modify
             (fun node (w : TreeBuilder * store_t) =>
                (w.1, (store_add (encode node) w.2).2))).
  rewrite (foldl_store_add encode).
  unfold mbind at 1, St_bind at 1.
  rewrite (for_each_modify
             (fun obj (w : TreeBuilder * store_t) =>
                (w.1, (store_add obj w.2).2))).
  rewrite (foldl_store_add id), list_fmap_id.
  reflexivity.
Qed.

Lemma add_all_snoc bs b s :
  add_all (bs ++ [b]) s = <[hash_object b := b]> (add_all bs s).
Proof. unfold add_all. by rewrite foldl_snoc. Qed.

Lemma add_all_app bs1 bs2 s :
  add_all (bs1 ++ bs2) s = add_all bs2 (add_all bs1 s).
Proof. unfold add_all. by rewrite foldl_app. Qed.

Lemma commit_nil s :
  commit (mkTreeBuilder [], s) = (Raise ValueError, (mkTreeBuilder [], s)).
Proof. reflexivity. Qed.

(** C7.  [commit] on a builder without pending entries raises the
    [ValueError] of [_make_subtree] (No items to put): no tree is returned,
    and the builder and the object store are left as they were. *)
Theorem commit_empty_raises b s :
  items b = [] ->
  commit (b, s) = (Raise ValueError, (b, s)).
Proof. destruct b as [its]. simpl. intros ->. apply commit_nil. Qed.

Lemma commit_root b s t :
  make_subtree (sorted_by_key (items b)) = Ok (flatten t) ->
  exists s',
    commit (b, s) =
      (Ok (Tree_init (hash_object (encode (node_of t)))), (b, s')).
Proof.
  intros Hmk. rewrite flatten_head in Hmk. eexists. by apply commit_eq.
Qed.

Lemma sorted_by_key_nonempty l : l <> [] -> sorted_by_key l <> [].
Proof.
  intros Hl Hs. apply Hl, length_zero_iff_nil.
  by rewrite <-sorted_by_key_length, Hs.
Qed.

(** C8.  Two builders that hold the same key-value pairs, staged in any
    order, commit to the same root hash; the second commit runs on the store
    the first one has written to. *)
Theorem commit_deterministic b1 b2 s :
  NoDup (items b1).*1 ->
  items b1 ≡ₚ items b2 ->
  items b1 <> [] ->
  exists T1 s1 T2 s2,
    commit (b1, s) = (Ok T1, (b1, s1)) /\
    commit (b2, s1) = (Ok T2, (b2, s2)) /\
    root T1 = root T2.
Proof.
  intros Hnd Hperm Hne.
  destruct (make_subtree_tree (sorted_by_key (items b1))) as (t & Hmk & _).
  { by apply sorted_by_key_nonempty. }
  destruct (commit_root b1 s t Hmk) as (s1 & Hc1).
  rewrite (sorted_by_key_unique _ _ Hnd Hperm) in Hmk.
  destruct (commit_root b2 s1 t Hmk) as (s2 & Hc2).
  by eexists _, s1, _, s2.
Qed.

(** C10.  [commit] does not touch the staged items: the builder comes out of
    the call as it went in, and a second [commit] on it succeeds with the
    root hash of the first. *)
Theorem commit_keeps_items b s :
  items b <> [] ->
  exists T1 s1 T2 s2,
    commit (b, s) = (Ok T1, (b, s1)) /\
    commit (b, s1) = (Ok T2, (b, s2)) /\
    root T2 = root T1.
Proof.
  intros Hne.
  destruct (make_subtree_tree (sorted_by_key (items b))) as (t & Hmk & _).
  { by apply sorted_by_key_nonempty. }
  destruct (commit_root b s t Hmk) as (s1 & Hc1).
  destruct (commit_root b s1 t Hmk) as (s2 & Hc2).
  by eexists _, s1, _, s2.
Qed.

Lemma shared_prefix_make_subtree :
  make_subtree (sorted_by_key (items shared_prefix_builder))
  = Ok (flatten shared_prefix_tree).
Proof. reflexivity. Qed.

(** C2 fails on the code.  For the keys "aa", "ab" and "b" the root of the
    committed tree is an internal node with pivot prefix "a", and the key
    "aa" of its left child does not compare below "a": the prefix ordering
    invariant is broken on the left. *)
Theorem prefix_ordering_broken_on_shared_prefix s :
  exists T s' lh rh l r,
    commit (shared_prefix_builder, s) = (Ok T, (shared_prefix_builder, s')) /\
    root T = hash_object (encode (node_of shared_prefix_tree)) /\
    make_subtree (sorted_by_key (items shared_prefix_builder))
      = Ok (flatten shared_prefix_tree) /\
    shared_prefix_tree = LNode "a" lh rh l r /\
    "aa" ∈ (leaves l).*1 /\
    str_lt "aa" "a" = false /\
    prefix_ordered shared_prefix_tree = false.
Proof.
  destruct (commit_root shared_prefix_builder s shared_prefix_tree
              shared_prefix_make_subtree) as (s' & Hc).
  eexists _, s', _, _, _, _. split; [exact Hc|].
  split_and!; try reflexivity. simpl. set_solver.
Qed.

End Commit.

(** ** Lookup *)

(** Unfold the monadic plumbing and compute. *)
Ltac run_st :=
  repeat (progress (unfold mbind, mret, St_bind, St_ret, result_bind,
                      result_ret, st_get, st_lift, st_modify; cbn)).

Section Lookup.

Variable s : store_t.

Lemma get_node_by_hash_spec h T :
  exists T',
    get_node_by_hash s h T = (resolve s (_cache T) h, T') /\
    root T' = root T /\
    forall h', resolve s (_cache T') h' = resolve s (_cache T) h'.
Proof.
  unfold get_node_by_hash, resolve. run_st.
  destruct (_cache T !! h) as [n|] eqn:Hc; run_st.
  { by exists T. }
  destruct (store_get s h true) as [[b|]|e|] eqn:Hget; run_st;
    try (exists T; by rewrite ?Hc).
  destruct (decode b) as [n|] eqn:Hdec; run_st; [|exists T; by rewrite ?Hc].
  eexists. split; [reflexivity|]. split; [done|]. cbn.
  intros h'. destruct (decide (h' = h)) as [->|Hne].
  - by rewrite lookup_insert_eq, Hc, Hget; cbn; rewrite Hdec.
  - by rewrite lookup_insert_ne.
Qed.

Lemma readable_ext c c' t :
  (forall h, resolve s c' h = resolve s c h) ->
  readable s c t -> readable s c' t.
Proof.
  intros Hext. induction t as [|p hl hr l IHl r IHr]; simpl; [done|].
  rewrite !Hext. naive_solver.
Qed.

Lemma get_child_spec h n T :
  truthy h = true -> resolve s (_cache T) h = Ok (Some n) ->
  exists T',
    get_child s (Some h) T = (Ok (Some n), T') /\
    root T' = root T /\
    forall h', resolve s (_cache T') h' = resolve s (_cache T) h'.
Proof.
  intros Ht Hres. simpl. rewrite Ht.
  destruct (get_node_by_hash_spec h T) as (T' & -> & ? & ?).
  exists T'. by rewrite Hres.
Qed.

Lemma inclusion_loop_spec t fuel key path closure T :
  readable s (_cache T) t -> depth t <= fuel ->
  exists T',
    inclusion_loop fuel s key (Some (node_of t)) path closure T =
      (Ok (path ++ (spec_inclusion_proof t key).1,
           closure ++ (spec_inclusion_proof t key).2), T') /\
    root T' = root T /\
    forall h, resolve s (_cache T') h = resolve s (_cache T) h.
Proof.
  revert fuel path closure T.
  induction t as [k ph|p hl hr l IHl r IHr]; intros fuel path closure T Hr Hd.
  { exists T. destruct fuel; simpl; by rewrite app_nil_r. }
  destruct fuel as [|fuel]; [simpl in Hd; lia|].
  destruct Hr as (Hl1 & Hr1 & Hl2 & Hr2 & Hl3 & Hr3). simpl in Hd.
  destruct (get_child_spec hl (node_of l) T Hl1 Hl2) as (T1 & Hc1 & Hroot1 & Hext1).
  destruct (get_child_spec hr (node_of r) T1 Hr1) as (T2 & Hc2 & Hroot2 & Hext2).
  { by rewrite Hext1. }
  assert (forall h, resolve s (_cache T2) h = resolve s (_cache T) h) as Hext.
  { intros h. by rewrite Hext2, Hext1. }
  cbn [inclusion_loop node_of]. unfold mbind at 1, St_bind. rewrite Hc1.
  unfold mbind at 1, St_bind. rewrite Hc2.
  cbn [spec_inclusion_proof]. destruct (str_lt key p).
  - destruct (IHl fuel (path ++ [TreeNode p (Some hl) (Some hr)])
                (closure ++ option_list (Some (node_of r))) T2)
      as (T3 & -> & Hroot3 & Hext3); [by eapply readable_ext|lia|].
    exists T3. destruct (spec_inclusion_proof l key) as [pa cl]. simpl.
    rewrite <-!app_assoc. simpl. split_and!; [done|congruence|].
    intros h. by rewrite Hext3.
  - destruct (IHr fuel (path ++ [TreeNode p (Some hl) (Some hr)])
                (closure ++ option_list (Some (node_of l))) T2)
      as (T3 & -> & Hroot3 & Hext3); [by eapply readable_ext|lia|].
    exists T3. destruct (spec_inclusion_proof r key) as [pa cl]. simpl.
    rewrite <-!app_assoc. simpl. split_and!; [done|congruence|].
    intros h. by rewrite Hext3.
Qed.

Lemma get_inclusion_proof_spec t fuel key T :
  resolve s (_cache T) (root T) = Ok (Some (node_of t)) ->
  readable s (_cache T) t ->
  depth t <= fuel ->
  exists T',
    get_inclusion_proof fuel s key T = (Ok (spec_inclusion_proof t key), T') /\
    root T' = root T /\
    (forall h, resolve s (_cache T') h = resolve s (_cache T) h).
Proof.
  intros Hroot Hr Hd. unfold get_inclusion_proof, root_node.
  destruct (get_node_by_hash_spec (root T) T) as (T1 & Hg & Hroot1 & Hext1).
  cbn. unfold mbind, St_bind. cbn. rewrite Hg, Hroot.
  destruct (inclusion_loop_spec t fuel key [] [] T1)
    as (T2 & -> & Hroot2 & Hext2); [by eapply readable_ext|done|].
  exists T2. simpl. rewrite <-surjective_pairing. split_and!; [done|congruence|].
  intros h. by rewrite Hext2.
Qed.

Lemma spec_inclusion_proof_last t key :
  last (spec_inclusion_proof t key).1 =
  Some (TreeLeaf (terminal_leaf t key).1 (terminal_leaf t key).2).
Proof.
  induction t as [k ph|p hl hr l IHl r IHr]; simpl; [done|].
  destruct (str_lt key p).
  - destruct (spec_inclusion_proof l key) as [[|n pa] cl]; simpl in *; done.
  - destruct (spec_inclusion_proof r key) as [[|n pa] cl]; simpl in *; done.
Qed.

Lemma terminal_leaf_in t key : terminal_leaf t key ∈ leaves t.
Proof.
  induction t as [k ph|p hl hr l IHl r IHr]; simpl; [by left|].
  destruct (str_lt key p); apply elem_of_app; auto.
Qed.

(** [__getitem__] on a readable tree: the outcome is decided by the leaf at
    which the traversal stops. *)
Lemma getitem_spec t fuel key T :
  resolve s (_cache T) (root T) = Ok (Some (node_of t)) ->
  readable s (_cache T) t ->
  depth t <= fuel ->
  exists T',
    getitem fuel s key T =
      (if decide ((terminal_leaf t key).1 = key)
       then store_get s (terminal_leaf t key).2 check_integrity_default
       else Raise KeyError, T').
Proof.
  intros Hroot Hr Hd. unfold getitem.
  destruct (get_inclusion_proof_spec t fuel key T) as (T' & Hg & _);
    [done..|].
  exists T'. unfold mbind, St_bind. rewrite Hg.
  pose proof (spec_inclusion_proof_last t key) as Hlast.
  destruct (spec_inclusion_proof t key) as [pa cl]. simpl in Hlast.
  rewrite Hlast. by destruct (decide _).
Qed.

(** C5.  On a tree that is readable from the root hash, the traversal of
    [get_inclusion_proof] returns the path and the closure the specification
    describes: starting at the root, below the pivot prefix it goes left and
    records the right child, otherwise it goes right and records the left
    child, and it stops at a leaf, the last node of the path. *)
Theorem get_inclusion_proof_follows_pivots t fuel key T :
  resolve s (_cache T) (root T) = Ok (Some (node_of t)) ->
  readable s (_cache T) t ->
  depth t <= fuel ->
  exists T',
    get_inclusion_proof fuel s key T = (Ok (spec_inclusion_proof t key), T') /\
    head (spec_inclusion_proof t key).1 = Some (node_of t) /\
    exists k ph, last (spec_inclusion_proof t key).1 = Some (TreeLeaf k ph).
Proof.
  intros Hroot Hr Hd.
  destruct (get_inclusion_proof_spec t fuel key T) as (T' & Hg & _);
    [done..|].
  exists T'. split_and!; [done| |].
  - destruct t as [k ph|p hl hr l r]; simpl; [done|].
    destruct (str_lt key p);
      [destruct (spec_inclusion_proof l key)
      |destruct (spec_inclusion_proof r key)]; done.
  - rewrite spec_inclusion_proof_last. eauto.
Qed.

End Lookup.

(** ** The committed tree *)

Section Committed.

(** The collaborators are assumed sound: the hash is free of collisions and
    never empty, and the codec decodes what it encoded. *)
Hypothesis hash_object_inj :
  forall a b, hash_object a = hash_object b -> a = b.
Hypothesis hash_object_nonempty : forall b, truthy (hash_object b) = true.
Hypothesis decode_encode : forall n, decode (encode n) = Some n.

Lemma add_all_lookup bs s b :
  b ∈ bs -> add_all bs s !! hash_object b = Some b.
Proof.
  induction bs as [|x bs IH] using rev_ind; [by intros ?%elem_of_nil|].
  rewrite add_all_snoc. intros Hin.
  destruct (decide (hash_object x = hash_object b)) as [Heq|Hne].
  - rewrite Heq, lookup_insert_eq. f_equal. by apply hash_object_inj.
  - rewrite lookup_insert_ne by done. apply IH.
    apply elem_of_app in Hin as [?|Hin]; [done|].
    by apply list_elem_of_singleton in Hin as ->.
Qed.

Lemma store_get_stored s b chk :
  s !! hash_object b = Some b -> store_get s (hash_object b) chk = Ok (Some b).
Proof.
  intros Hs. unfold store_get. rewrite Hs, bool_decide_eq_true_2 by done.
  by rewrite andb_false_r.
Qed.

Lemma resolve_stored s n :
  s !! hash_object (encode n) = Some (encode n) ->
  resolve s ∅ (hash_object (encode n)) = Ok (Some n).
Proof.
  intros Hs. unfold resolve. rewrite lookup_empty, (store_get_stored _ _ _ Hs).
  cbn. by rewrite decode_encode.
Qed.

Lemma readable_stored s t :
  merkle t ->
  (forall n, n ∈ flatten t -> s !! hash_object (encode n) = Some (encode n)) ->
  readable s ∅ t.
Proof.
  induction t as [k ph|p hl hr l IHl r IHr]; [done|].
  intros (-> & -> & Hml & Hmr) Hs. cbn [readable].
  assert (forall n, n ∈ flatten l -> n ∈ flatten (LNode p
            (hash_object (encode (node_of l)))
            (hash_object (encode (node_of r))) l r)) as Hinl.
  { intros n Hn. right. apply elem_of_app. by left. }
  assert (forall n, n ∈ flatten r -> n ∈ flatten (LNode p
            (hash_object (encode (node_of l)))
            (hash_object (encode (node_of r))) l r)) as Hinr.
  { intros n Hn. right. apply elem_of_app. by right. }
  split_and!; auto.
  - apply resolve_stored, Hs, Hinl. rewrite flatten_head. left.
  - apply resolve_stored, Hs, Hinr. rewrite flatten_head. left.
Qed.

(** [commit] on a non-empty builder returns a tree whose nodes and payloads
    are all in the store, and a lookup in that tree is decided by the leaf
    its traversal reaches. *)
Lemma commit_lookup b s t :
  make_subtree (sorted_by_key (items b)) = Ok (flatten t) ->
  merkle t ->
  exists T s',
    commit (b, s) = (Ok T, (b, s')) /\
    T = Tree_init (hash_object (encode (node_of t))) /\
    (forall v, v ∈ (items b).*2 -> s' !! hash_object v = Some v) /\
    resolve s' (_cache T) (root T) = Ok (Some (node_of t)) /\
    readable s' (_cache T) t.
Proof.
  intros Hmk Hm. rewrite flatten_head in Hmk.
  eexists _, _. split; [by apply commit_eq|]. split; [done|].
  rewrite <-flatten_head, <-add_all_app.
  assert (forall n, n ∈ flatten t ->
            add_all ((encode <$> flatten t) ++ (items b).*2) s
              !! hash_object (encode n) = Some (encode n)) as Hnodes.
  { intros n Hn. apply add_all_lookup, elem_of_app. left.
    by apply list_elem_of_fmap_2. }
  split_and!.
  - intros v Hv. apply add_all_lookup, elem_of_app. by right.
  - apply resolve_stored, Hnodes. rewrite flatten_head. left.
  - by apply readable_stored.
Qed.

Lemma commit_Ok_nonempty b s T w : commit (b, s) = (Ok T, w) -> items b <> [].
Proof.
  destruct b as [its]. simpl. intros Hc ->. by rewrite commit_nil in Hc.
Qed.

(** The leaf a traversal stops at holds a staged key and the hash of the
    payload staged for it. *)
Lemma terminal_leaf_staged b t key :
  leaves t = (fun kv => (kv.1, hash_object kv.2)) <$> sorted_by_key (items b) ->
  exists v, ((terminal_leaf t key).1, v) ∈ items b /\
            (terminal_leaf t key).2 = hash_object v.
Proof.
  intros Hleaves. pose proof (terminal_leaf_in t key) as Hin.
  rewrite Hleaves in Hin. apply list_elem_of_fmap in Hin as ([k v] & Heq & Hkv).
  rewrite sorted_by_key_perm in Hkv. rewrite Heq. by exists v.
Qed.

(** C6.  In a tree that [commit] returned, the traversal for any key stops at
    a leaf, and [__getitem__] returns exactly when that leaf holds the
    queried key and raises [KeyError] otherwise.  For a key that was never
    staged the leaf holds another key, so the lookup raises [KeyError]. *)
Theorem lookup_decided_by_terminal_leaf b s T b' s' key fuel :
  commit (b, s) = (Ok T, (b', s')) ->
  length (items b) <= fuel ->
  exists path closure k ph T1 T2 r,
    get_inclusion_proof fuel s' key T = (Ok (path, closure), T1) /\
    last path = Some (TreeLeaf k ph) /\
    getitem fuel s' key T = (r, T2) /\
    ((exists v, r = Ok v) <-> k = key) /\
    (k <> key -> r = Raise KeyError) /\
    (key ∉ (items b).*1 -> k <> key /\ r = Raise KeyError).
Proof.
  intros Hc Hfuel. pose proof (commit_Ok_nonempty _ _ _ _ Hc) as Hne.
  destruct (make_subtree_tree (sorted_by_key (items b)))
    as (t & Hmk & Hm & Hleaves & _); [by apply sorted_by_key_nonempty|].
  destruct (commit_lookup b s t Hmk Hm) as (T0 & s0 & Hc0 & _ & Hpay & Hroot & Hr).
  rewrite Hc0 in Hc. injection Hc as -> <- ->.
  assert (depth t <= fuel) as Hd.
  { pose proof (flatten_depth t) as Hlt.
    rewrite Hleaves, length_fmap, sorted_by_key_length in Hlt. lia. }
  destruct (get_inclusion_proof_spec s' t fuel key T Hroot Hr Hd)
    as (T1 & Hg & _).
  destruct (getitem_spec s' t fuel key T Hroot Hr Hd) as (T2 & Hgi).
  destruct (terminal_leaf_staged b t key Hleaves) as (v & Hkv & Hph).
  pose proof (spec_inclusion_proof_last t key) as Hlast.
  destruct (spec_inclusion_proof t key) as [path closure]. simpl in Hlast.
  eexists path, closure, _, _, T1, T2, _.
  split; [exact Hg|]. split; [exact Hlast|]. split; [exact Hgi|].
  destruct (decide ((terminal_leaf t key).1 = key)) as [Heq|Hneq].
  - rewrite Hph, (store_get_stored s' v).
    2:{ apply Hpay, list_elem_of_fmap. by eexists (_, v). }
    split; [split; [done|by eauto]|]. split; [done|].
    intros Hnotin. destruct Hnotin.
    apply list_elem_of_fmap. exists ((terminal_leaf t key).1, v).
    split; [by symmetry|exact Hkv].
  - split; [split; [by intros [? ?]|done]|]. done.
Qed.

Lemma shared_prefix_merkle : merkle shared_prefix_tree.
Proof. simpl. done. Qed.

(** C1 fails on the code.  After staging "aa", "ab" and "b" and committing,
    the staged key "aa" is not found: [__getitem__] raises [KeyError] and
    [__contains__] answers [False]. *)
Theorem inserted_key_not_found s :
  exists T s' T',
    commit (shared_prefix_builder, s) = (Ok T, (shared_prefix_builder, s')) /\
    dict_get "aa" (items shared_prefix_builder) = Some ["1"%byte] /\
    getitem 3 s' "aa" T = (Raise KeyError, T') /\
    contains 3 s' "aa" T = (Ok false, T').
Proof.
  destruct (commit_lookup shared_prefix_builder s shared_prefix_tree
              shared_prefix_make_subtree shared_prefix_merkle)
    as (T & s' & Hc & _ & _ & Hroot & Hr).
  destruct (getitem_spec s' shared_prefix_tree 3 "aa" T Hroot Hr) as (T' & Hg).
  { simpl. lia. }
  exists T, s', T'. split; [exact Hc|]. split; [reflexivity|].
  unfold contains. rewrite Hg. done.
Qed.

(** Where the prefix ordering invariant does hold, every leaf key leads the
    traversal to its own leaf. *)
Lemma terminal_leaf_ordered t k ph :
  prefix_ordered t = true -> (k, ph) ∈ leaves t ->
  (terminal_leaf t k).1 = k.
Proof.
  induction t as [k0 ph0|p hl hr l IHl r IHr]; simpl.
  { by intros _ [= -> ->]%list_elem_of_singleton. }
  rewrite !andb_true_iff, !forallb_forall.
  intros [[[Hl Hr] Hol] Hor] [Hin|Hin]%elem_of_app.
  - specialize (Hl (k, ph)). simpl in Hl.
    rewrite Hl by by apply list_elem_of_In. auto.
  - specialize (Hr (k, ph)). simpl in Hr.
    destruct (str_lt k p); [|auto].
    discriminate Hr. by apply list_elem_of_In.
Qed.

(** Round trip, where the invariant holds: in a committed tree that is
    prefix-ordered every staged key is found with its payload. *)
Lemma roundtrip_when_prefix_ordered b s t key v fuel :
  make_subtree (sorted_by_key (items b)) = Ok (flatten t) ->
  merkle t ->
  leaves t = ((fun kv => (kv.1, hash_object kv.2)) <$> sorted_by_key (items b)) ->
  prefix_ordered t = true ->
  NoDup (items b).*1 ->
  (key, v) ∈ items b ->
  length (items b) <= fuel ->
  exists T s' T',
    commit (b, s) = (Ok T, (b, s')) /\
    getitem fuel s' key T = (Ok (Some v), T') /\
    contains fuel s' key T = (Ok true, T').
Proof.
  intros Hmk Hm Hleaves Hord Hnd Hin Hfuel.
  destruct (commit_lookup b s t Hmk Hm) as (T & s' & Hc & _ & Hpay & Hroot & Hr).
  assert (depth t <= fuel) as Hd.
  { pose proof (flatten_depth t) as Hlt.
    rewrite Hleaves, length_fmap, sorted_by_key_length in Hlt. lia. }
  destruct (getitem_spec s' t fuel key T Hroot Hr Hd) as (T' & Hg).
  assert ((key, hash_object v) ∈ leaves t) as Hleaf.
  { rewrite Hleaves. apply list_elem_of_fmap. exists (key, v).
    split; [done|]. by rewrite sorted_by_key_perm. }
  pose proof (terminal_leaf_ordered t key _ Hord Hleaf) as Hk.
  destruct (terminal_leaf_staged b t key Hleaves) as (v' & Hkv' & Hph).
  rewrite Hk in Hkv'.
  assert (v' = v) as -> by by eapply NoDup_keys_functional.
  rewrite decide_True, Hph, (store_get_stored s' v) in Hg; [|..|done].
  2:{ apply Hpay, list_elem_of_fmap. by exists (key, v). }
  exists T, s', T'. split; [done|]. split; [done|].
  unfold contains. by rewrite Hg.
Qed.

End Committed.

(** ** More on the construction *)

Section ConstructionShape.

Lemma flatten_app_inj t1 t2 r1 r2 :
  flatten t1 ++ r1 = flatten t2 ++ r2 -> t1 = t2 /\ r1 = r2.
Proof.
  revert t2 r1 r2.
  induction t1 as [k ph|p hl hr l IHl r IHr]; intros [k' ph'|p' hl' hr' l' r'];
    intros r1 r2; simpl; intros Heq; try discriminate.
  { by injection Heq as -> -> ->. }
  injection Heq as -> -> -> Heq. rewrite <-!app_assoc in Heq.
  apply IHl in Heq as [-> Heq]. apply IHr in Heq as [-> ->]. done.
Qed.

Lemma flatten_inj t1 t2 : flatten t1 = flatten t2 -> t1 = t2.
Proof.
  intros Heq. apply (flatten_app_inj t1 t2 [] []). by rewrite !app_nil_r.
Qed.

(** Induction along the recursion of [_make_subtree]. *)
Lemma make_subtree_ind (P : list (string * list byte) -> ltree -> Prop) :
  (forall k v, P [(k, v)] (LLeaf k (hash_object v))) ->
  (forall its k v tl tr p,
     2 <= length its ->
     its !! (length its / 2) = Some (k, v) ->
     is_prefix p k = true ->
     make_subtree (take (length its / 2) its) = Ok (flatten tl) ->
     make_subtree (drop (length its / 2) its) = Ok (flatten tr) ->
     P (take (length its / 2) its) tl ->
     P (drop (length its / 2) its) tr ->
     P its (LNode p (hash_object (encode (node_of tl)))
                    (hash_object (encode (node_of tr))) tl tr)) ->
  forall its t, make_subtree its = Ok (flatten t) -> P its t.
Proof.
  intros Hleaf Hnode its.
  remember (length its) as n eqn:Hn. revert its Hn.
  induction n as [n IH] using lt_wf_ind. intros its Hn t Hmk.
  destruct its as [|[k v] [|kv2 its']].
  - discriminate.
  - rewrite make_subtree_single in Hmk. injection Hmk as Hmk.
    destruct t; [|discriminate]. injection Hmk as <- <-. apply Hleaf.
  - remember ((k, v) :: kv2 :: its') as l eqn:Hl0.
    assert (2 <= length l) as Hlen by (subst l; simpl; lia).
    clear Hl0. subst n.
    destruct (make_subtree_step l Hlen)
      as (mk & mv & tl & tr & cp & Hmid & Hl & Hr & _ & Hres).
    rewrite Hres in Hmk. injection Hmk as Hmk.
    apply (flatten_inj (LNode _ _ _ tl tr)) in Hmk. subst t.
    destruct (half_bounds _ Hlen) as [Hlo Hhi].
    apply (Hnode l mk mv); try done.
    + apply slice_to_prefix.
    + eapply IH; [|reflexivity|done]. rewrite length_take. lia.
    + eapply IH; [|reflexivity|done]. rewrite length_drop. lia.
Qed.

Lemma flatten_length t : length (flatten t) = 2 * length (leaves t) - 1.
Proof.
  induction t as [k ph|p hl hr l IHl r IHr]; simpl; [done|].
  rewrite !length_app, IHl, IHr.
  pose proof (flatten_depth l). pose proof (flatten_depth r). lia.
Qed.

Lemma flatten_leaves t : omap leaf_of (flatten t) = leaves t.
Proof.
  induction t as [k ph|p hl hr l IHl r IHr]; simpl; [done|].
  by rewrite omap_app, IHl, IHr.
Qed.

(** X1.  On [n >= 1] items [_make_subtree] returns [2n - 1] nodes, and the
    leaves among them are the items in their order, each with the hash of
    its payload. *)
Theorem make_subtree_nodes_and_leaves its nodes :
  make_subtree its = Ok nodes ->
  length nodes = 2 * length its - 1 /\
  omap leaf_of nodes = (fun kv => (kv.1, hash_object kv.2)) <$> its.
Proof.
  intros Hok.
  destruct (make_subtree_tree its) as (t & Ht & _ & Hleaves & _).
  { by eapply make_subtree_Ok_nonempty. }
  rewrite Hok in Ht. injection Ht as ->.
  by rewrite flatten_length, flatten_leaves, Hleaves, length_fmap.
Qed.

(** The tree is balanced by count: its depth is the binary logarithm of the
    number of items, rounded up. *)
Lemma make_subtree_depth its t :
  make_subtree its = Ok (flatten t) ->
  (length its = 1 /\ depth t = 0) \/
  (2 <= length its /\ 2 ^ depth t <= 2 * (length its - 1)).
Proof.
  revert its t. apply make_subtree_ind.
  { intros k v. by left. }
  intros its k v tl tr p Hlen Hmid _ _ _ IHl IHr. right. split; [done|].
  destruct (half_bounds _ Hlen) as [Hlo Hhi].
  rewrite length_take in IHl. rewrite length_drop in IHr.
  pose proof (Nat.div_mod_eq (length its) 2) as Hdm.
  pose proof (Nat.mod_upper_bound (length its) 2) as Hmod.
  set (n := length its) in *. set (m := n / 2) in *.
  assert (2 ^ depth tl <= n - 1) as Hl.
  { destruct IHl as [[_ ->]|[_ H]]; simpl; lia. }
  assert (2 ^ depth tr <= n - 1) as Hr.
  { destruct IHr as [[_ ->]|[_ H]]; simpl; lia. }
  cbn [depth]. rewrite Nat.pow_succ_r'.
  destruct (Nat.max_spec (depth tl) (depth tr)) as [[_ ->]|[_ ->]]; lia.
Qed.

Lemma depth_le_log its t f :
  make_subtree its = Ok (flatten t) -> length its <= 2 ^ f -> depth t <= f.
Proof.
  intros Hmk Hf. destruct (make_subtree_depth its t Hmk) as [[_ ->]|[Hn Hd]].
  { lia. }
  apply Nat.lt_succ_r, (Nat.pow_lt_mono_r_iff 2); [lia|].
  rewrite Nat.pow_succ_r'. lia.
Qed.

End ConstructionShape.

(** ** Staging *)

Section Staging.

Lemma dict_get_set_eq k v d : dict_get k (dict_set k v d) = Some v.
Proof.
  induction d as [|[k' v'] d IH]; simpl.
  { by rewrite decide_True. }
  destruct (decide (k' = k)) as [->|Hne]; simpl.
  - by rewrite decide_True.
  - by rewrite decide_False.
Qed.

Lemma dict_get_set_ne k k' v d :
  k' <> k -> dict_get k' (dict_set k v d) = dict_get k' d.
Proof.
  intros Hne. induction d as [|[k2 v2] d IH]; simpl.
  { by rewrite decide_False. }
  destruct (decide (k2 = k)) as [->|Hne2]; simpl.
  - by rewrite !decide_False.
  - destruct (decide (k2 = k')); done.
Qed.

Lemma dict_get_elem_of k v d : dict_get k d = Some v -> (k, v) ∈ d.
Proof.
  induction d as [|[k' v'] d IH]; simpl; [done|].
  destruct (decide (k' = k)) as [->|Hne].
  - intros [= ->]. left.
  - intros H. right. auto.
Qed.

Lemma staged_snoc l k v : staged (l ++ [(k, v)]) = setitem k v (staged l).
Proof. unfold staged. by rewrite foldl_snoc. Qed.

Lemma staged_NoDup l : NoDup (items (staged l)).*1.
Proof.
  induction l as [|[k v] l IH] using rev_ind.
  - apply NoDup_nil_2.
  - rewrite staged_snoc. by apply dict_set_keys_NoDup.
Qed.

(** X2.  However a builder is filled by assignments, its keys stay distinct;
    a key reads as the value assigned to it last, a key never assigned is
    absent, and what is read is among the items [commit] will sort. *)
Theorem staged_last_assignment_wins l k :
  NoDup (items (staged l)).*1 /\
  dict_get k (items (staged l)) = snd <$> last (filter (fun kv => kv.1 = k) l) /\
  (forall v, dict_get k (items (staged l)) = Some v ->
             (k, v) ∈ items (staged l)).
Proof.
  split; [apply staged_NoDup|]. split; [|intros v; apply dict_get_elem_of].
  induction l as [|[k' v'] l IH] using rev_ind; [done|].
  rewrite staged_snoc, filter_app. cbn [setitem items].
  destruct (decide (k' = k)) as [->|Hne].
  - rewrite dict_get_set_eq.
    rewrite (filter_cons_True _ (k, v')), filter_nil by done.
    by rewrite last_snoc.
  - rewrite dict_get_set_ne by done.
    rewrite (filter_cons_False _ (k', v')), filter_nil, app_nil_r by done.
    exact IH.
Qed.

End Staging.

(** ** Failures of the store *)

Section StoreFailures.

Variable s : store_t.

Lemma root_outcome_propagates fuel key T e :
  get_node_by_hash s (root T) T = (Raise e, T) ->
  e <> KeyError ->
  get_inclusion_proof fuel s key T = (Raise e, T) /\
  getitem fuel s key T = (Raise e, T) /\
  contains fuel s key T = (Raise e, T).
Proof.
  intros Hroot He.
  assert (get_inclusion_proof fuel s key T = (Raise e, T)) as Hg.
  { unfold get_inclusion_proof, root_node.
    unfold mbind at 1, St_bind at 1. unfold mbind at 1, St_bind at 1.
    unfold st_get at 1. by rewrite Hroot. }
  assert (getitem fuel s key T = (Raise e, T)) as Hgi.
  { unfold getitem. unfold mbind at 1, St_bind at 1. by rewrite Hg. }
  split_and!; [done..|]. unfold contains. rewrite Hgi. by destruct e.
Qed.

(** X3.  A block whose stored bytes do not hash to its address is rejected
    unless it is cached: [get_node_by_hash] raises the store's integrity
    error and caches nothing.  When the block is the root, every lookup
    raises that error too; [__contains__] does not turn it into [False]. *)
Theorem tampered_block_is_rejected T h b fuel key :
  _cache T !! h = None ->
  s !! h = Some b ->
  hash_object b <> h ->
  get_node_by_hash s h T = (Raise CorruptionError, T) /\
  (h = root T ->
   get_inclusion_proof fuel s key T = (Raise CorruptionError, T) /\
   getitem fuel s key T = (Raise CorruptionError, T) /\
   contains fuel s key T = (Raise CorruptionError, T)).
Proof.
  intros Hc Hs Hh.
  assert (get_node_by_hash s h T = (Raise CorruptionError, T)) as Hg.
  { unfold get_node_by_hash. run_st. rewrite Hc. run_st.
    unfold store_get. rewrite Hs, bool_decide_eq_false_2 by done. done. }
  split; [done|]. intros ->. by apply root_outcome_propagates.
Qed.

(** X4.  A tree whose root hash is neither cached nor in the store has no
    root node: [get_node_by_hash] returns [None], and every lookup raises
    [AttributeError], not [KeyError]; [__contains__] raises as well. *)
Theorem missing_root_raises T fuel key :
  _cache T !! root T = None ->
  s !! root T = None ->
  get_node_by_hash s (root T) T = (Ok None, T) /\
  get_inclusion_proof fuel s key T = (Raise AttributeError, T) /\
  getitem fuel s key T = (Raise AttributeError, T) /\
  contains fuel s key T = (Raise AttributeError, T).
Proof.
  intros Hc Hs.
  assert (get_node_by_hash s (root T) T = (Ok None, T)) as Hroot.
  { unfold get_node_by_hash. run_st. rewrite Hc. run_st.
    unfold store_get. by rewrite Hs. }
  assert (get_inclusion_proof fuel s key T = (Raise AttributeError, T)) as Hg.
  { unfold get_inclusion_proof, root_node.
    unfold mbind at 1, St_bind at 1. unfold mbind at 1, St_bind at 1.
    unfold st_get at 1. rewrite Hroot. by destruct fuel. }
  assert (getitem fuel s key T = (Raise AttributeError, T)) as Hgi.
  { unfold getitem. unfold mbind at 1, St_bind at 1. by rewrite Hg. }
  split_and!; [done..|]. unfold contains. by rewrite Hgi.
Qed.

End StoreFailures.

(** ** More on lookups *)

Section LookupShape.

Variable s : store_t.

Lemma getitem_spec_ext t fuel key T :
  resolve s (_cache T) (root T) = Ok (Some (node_of t)) ->
  readable s (_cache T) t ->
  depth t <= fuel ->
  exists T',
    getitem fuel s key T =
      (if decide ((terminal_leaf t key).1 = key)
       then store_get s (terminal_leaf t key).2 check_integrity_default
       else Raise KeyError, T') /\
    get_inclusion_proof fuel s key T = (Ok (spec_inclusion_proof t key), T') /\
    root T' = root T /\
    (forall h, resolve s (_cache T') h = resolve s (_cache T) h).
Proof.
  intros Hroot Hr Hd. unfold getitem.
  destruct (get_inclusion_proof_spec s t fuel key T) as (T' & Hg & Hroot' & Hext);
    [done..|].
  exists T'. unfold mbind, St_bind. rewrite Hg.
  pose proof (spec_inclusion_proof_last t key) as Hlast.
  destruct (spec_inclusion_proof t key) as [pa cl]. simpl in Hlast.
  rewrite Hlast. split_and!; [|done..]. by destruct (decide _).
Qed.

Lemma spec_inclusion_proof_shape t key :
  length (spec_inclusion_proof t key).1
    = S (length (spec_inclusion_proof t key).2) /\
  length (spec_inclusion_proof t key).2 <= depth t.
Proof.
  induction t as [k ph|p hl hr l IHl r IHr]; simpl; [by auto|].
  destruct (str_lt key p).
  - destruct (spec_inclusion_proof l key) as [pa cl]. simpl in *. lia.
  - destruct (spec_inclusion_proof r key) as [pa cl]. simpl in *. lia.
Qed.

Lemma spec_inclusion_proof_links t key :
  merkle t ->
  proof_links (hash_object (encode (node_of t))) key
    (spec_inclusion_proof t key).1 (spec_inclusion_proof t key).2.
Proof.
  induction t as [k ph|p hl hr l IHl r IHr]; simpl; [done|].
  intros (-> & -> & Hml & Hmr).
  destruct (str_lt key p) eqn:Hlt.
  - specialize (IHl Hml).
    destruct (spec_inclusion_proof l key) as [pa cl]. simpl in *.
    rewrite Hlt. eauto.
  - specialize (IHr Hmr).
    destruct (spec_inclusion_proof r key) as [pa cl]. simpl in *.
    rewrite Hlt. eauto.
Qed.

End LookupShape.

(** ** The trusted cache *)

Section TrustedCache.

Lemma get_node_by_hash_cache (s : store_t) h T :
  exists T',
    get_node_by_hash s h T = (resolve s (_cache T) h, T') /\
    root T' = root T /\
    _cache T ⊆ _cache T' /\
    (forall h', resolve s (_cache T') h' = resolve s (_cache T) h') /\
    (forall n, resolve s (_cache T) h = Ok (Some n) -> _cache T' !! h = Some n).
Proof.
  unfold get_node_by_hash, resolve. run_st.
  destruct (_cache T !! h) as [n|] eqn:Hc; run_st.
  { exists T. split_and!; try done. by intros n' [= <-]. }
  destruct (store_get s h true) as [[b|]|e|] eqn:Hget; run_st;
    try (exists T; split_and!; done).
  destruct (decode b) as [n|] eqn:Hdec; run_st;
    [|exists T; split_and!; done].
  eexists. split; [reflexivity|]. cbn. split_and!; [done| | |].
  - by apply insert_subseteq.
  - intros h'. destruct (decide (h' = h)) as [->|Hne].
    + by rewrite lookup_insert_eq, Hc, Hget; cbn; rewrite Hdec.
    + by rewrite lookup_insert_ne.
  - intros n' [= <-]. by rewrite lookup_insert_eq.
Qed.

Lemma cached_along_mono c c' t key :
  c ⊆ c' -> cached_along c t key -> cached_along c' t key.
Proof.
  intros Hsub. induction t as [k ph|p hl hr l IHl r IHr]; simpl; [done|].
  intros (? & ? & Hl & Hr & Hrest). split_and!; try done.
  - by eapply lookup_weaken.
  - by eapply lookup_weaken.
  - destruct (str_lt key p); auto.
Qed.

(** A traversal leaves in the cache everything it fetched. *)
Lemma inclusion_loop_fills_cache (s : store_t) t fuel key path closure T :
  readable s (_cache T) t -> depth t <= fuel ->
  exists T',
    inclusion_loop fuel s key (Some (node_of t)) path closure T =
      (Ok (path ++ (spec_inclusion_proof t key).1,
           closure ++ (spec_inclusion_proof t key).2), T') /\
    root T' = root T /\
    _cache T ⊆ _cache T' /\
    (forall h, resolve s (_cache T') h = resolve s (_cache T) h) /\
    cached_along (_cache T') t key.
Proof.
  revert fuel path closure T.
  induction t as [k ph|p hl hr l IHl r IHr]; intros fuel path closure T Hr Hd.
  { exists T. destruct fuel; simpl; by rewrite app_nil_r. }
  destruct fuel as [|fuel]; [simpl in Hd; lia|].
  destruct Hr as (Hl1 & Hr1 & Hl2 & Hr2 & Hl3 & Hr3). simpl in Hd.
  destruct (get_node_by_hash_cache s hl T)
    as (T1 & Hc1 & Hroot1 & Hsub1 & Hext1 & Hin1).
  destruct (get_node_by_hash_cache s hr T1)
    as (T2 & Hc2 & Hroot2 & Hsub2 & Hext2 & Hin2).
  rewrite Hl2 in Hc1. rewrite Hext1, Hr2 in Hc2.
  assert (forall h, resolve s (_cache T2) h = resolve s (_cache T) h) as Hext.
  { intros h. by rewrite Hext2, Hext1. }
  assert (_cache T2 !! hl = Some (node_of l)) as Hcl.
  { eapply lookup_weaken; [by apply Hin1|done]. }
  assert (_cache T2 !! hr = Some (node_of r)) as Hcr.
  { apply Hin2. by rewrite Hext1. }
  cbn [inclusion_loop node_of get_child]. rewrite Hl1, Hr1.
  unfold mbind at 1, St_bind. rewrite Hc1.
  unfold mbind at 1, St_bind. rewrite Hc2.
  cbn [spec_inclusion_proof cached_along]. destruct (str_lt key p).
  - destruct (IHl fuel (path ++ [TreeNode p (Some hl) (Some hr)])
                (closure ++ option_list (Some (node_of r))) T2)
      as (T3 & -> & Hroot3 & Hsub3 & Hext3 & Hca); [by eapply readable_ext|lia|].
    exists T3. destruct (spec_inclusion_proof l key) as [pa cl]. simpl.
    rewrite <-!app_assoc. simpl. split_and!; try done.
    + congruence.
    + by repeat (etrans; [eassumption|]).
    + intros h. by rewrite Hext3.
    + by eapply lookup_weaken.
    + by eapply lookup_weaken.
  - destruct (IHr fuel (path ++ [TreeNode p (Some hl) (Some hr)])
                (closure ++ option_list (Some (node_of l))) T2)
      as (T3 & -> & Hroot3 & Hsub3 & Hext3 & Hca); [by eapply readable_ext|lia|].
    exists T3. destruct (spec_inclusion_proof r key) as [pa cl]. simpl.
    rewrite <-!app_assoc. simpl. split_and!; try done.
    + congruence.
    + by repeat (etrans; [eassumption|]).
    + intros h. by rewrite Hext3.
    + by eapply lookup_weaken.
    + by eapply lookup_weaken.
Qed.

(** A traversal whose nodes are all cached reads nothing from the store. *)
Lemma inclusion_loop_from_cache (s2 : store_t) t fuel key path closure T :
  cached_along (_cache T) t key -> depth t <= fuel ->
  inclusion_loop fuel s2 key (Some (node_of t)) path closure T =
    (Ok (path ++ (spec_inclusion_proof t key).1,
         closure ++ (spec_inclusion_proof t key).2), T).
Proof.
  revert fuel path closure.
  induction t as [k ph|p hl hr l IHl r IHr]; intros fuel path closure Hc Hd.
  { destruct fuel; simpl; by rewrite app_nil_r. }
  destruct fuel as [|fuel]; [simpl in Hd; lia|].
  destruct Hc as (Hl1 & Hr1 & Hl2 & Hr2 & Hrest). simpl in Hd.
  cbn [inclusion_loop node_of get_child]. rewrite Hl1, Hr1.
  unfold get_node_by_hash. run_st. rewrite Hl2. run_st. rewrite Hr2. run_st.
  destruct (str_lt key p).
  - rewrite IHl by (done || lia).
    destruct (spec_inclusion_proof l key) as [pa cl]. simpl.
    by rewrite <-!app_assoc.
  - rewrite IHr by (done || lia).
    destruct (spec_inclusion_proof r key) as [pa cl]. simpl.
    by rewrite <-!app_assoc.
Qed.

Lemma get_inclusion_proof_cached (s s2 : store_t) t fuel key T :
  resolve s (_cache T) (root T) = Ok (Some (node_of t)) ->
  readable s (_cache T) t ->
  depth t <= fuel ->
  exists T1,
    get_inclusion_proof fuel s key T = (Ok (spec_inclusion_proof t key), T1) /\
    get_inclusion_proof fuel s2 key T1 = (Ok (spec_inclusion_proof t key), T1).
Proof.
  intros Hroot Hr Hd.
  destruct (get_node_by_hash_cache s (root T) T)
    as (T0 & Hg & Hroot0 & Hsub0 & Hext0 & Hin0).
  rewrite Hroot in Hg.
  destruct (inclusion_loop_fills_cache s t fuel key [] [] T0)
    as (T1 & Hloop & Hroot1 & Hsub1 & _ & Hca); [by eapply readable_ext|done|].
  exists T1. split.
  - unfold get_inclusion_proof, root_node.
    unfold mbind at 1, St_bind at 1. unfold mbind at 1, St_bind at 1.
    unfold st_get at 1. rewrite Hg, Hloop. simpl.
    by rewrite <-surjective_pairing.
  - assert (_cache T1 !! root T1 = Some (node_of t)) as Hc.
    { rewrite Hroot1, Hroot0. eapply lookup_weaken; [by apply Hin0|done]. }
    unfold get_inclusion_proof, root_node, get_node_by_hash. run_st.
    rewrite Hc. run_st.
    rewrite (inclusion_loop_from_cache s2 t fuel key [] [] T1 Hca Hd). simpl.
    by rewrite <-surjective_pairing.
Qed.

Lemma get_child_cache (s : store_t) h T :
  exists T',
    get_child s h T = (resolve_child s (_cache T) h, T') /\
    root T' = root T /\
    (forall h', resolve s (_cache T') h' = resolve s (_cache T) h').
Proof.
  destruct h as [h|]; simpl; [|by exists T].
  destruct (truthy h); [|by exists T].
  destruct (get_node_by_hash_cache s h T) as (T' & -> & ? & _ & ? & _).
  by exists T'.
Qed.

(** X18.  A child block that cannot be resolved is not reported as such.  At
    a root that is an internal node, with both child references resolving
    without an error: if the child on the key's side is missing, the lookup
    raises [AttributeError] (and so does [__contains__]); if that child is
    a leaf and the other child is missing, the traversal returns normally
    with an empty closure. *)
Theorem missing_child_block (s : store_t) T p lh rh left_child right_child key fuel :
  resolve s (_cache T) (root T) = Ok (Some (TreeNode p lh rh)) ->
  resolve_child s (_cache T) lh = Ok left_child ->
  resolve_child s (_cache T) rh = Ok right_child ->
  1 <= fuel ->
  ((if str_lt key p then left_child else right_child) = None ->
   exists T',
     get_inclusion_proof fuel s key T = (Raise AttributeError, T') /\
     getitem fuel s key T = (Raise AttributeError, T') /\
     contains fuel s key T = (Raise AttributeError, T')) /\
  (forall k ph,
     (if str_lt key p then left_child else right_child) = Some (TreeLeaf k ph) ->
     (if str_lt key p then right_child else left_child) = None ->
     exists T',
       get_inclusion_proof fuel s key T
         = (Ok ([TreeNode p lh rh; TreeLeaf k ph], []), T')).
Proof.
  intros Hroot Hl Hr Hf. destruct fuel as [|fuel]; [lia|].
  destruct (get_node_by_hash_cache s (root T) T) as (T0 & Hg & _ & _ & Hext0 & _).
  rewrite Hroot in Hg.
  destruct (get_child_cache s lh T0) as (T1 & Hc1 & _ & Hext1).
  destruct (get_child_cache s rh T1) as (T2 & Hc2 & _ & _).
  assert (resolve_child s (_cache T0) lh = Ok left_child) as Hl0.
  { rewrite <-Hl. destruct lh as [h|]; simpl; [|done]. by rewrite Hext0. }
  assert (resolve_child s (_cache T1) rh = Ok right_child) as Hr1.
  { rewrite <-Hr. destruct rh as [h|]; simpl; [|done].
    by rewrite Hext1, Hext0. }
  rewrite Hl0 in Hc1. rewrite Hr1 in Hc2.
  assert (get_inclusion_proof (S fuel) s key T
            = inclusion_loop fuel s key
                (if str_lt key p then left_child else right_child)
                [TreeNode p lh rh]
                (option_list (if str_lt key p then right_child else left_child)) T2) as Hstep.
  { unfold get_inclusion_proof, root_node.
    unfold mbind at 1, St_bind at 1. unfold mbind at 1, St_bind at 1.
    unfold st_get at 1. rewrite Hg. cbn [inclusion_loop].
    unfold mbind at 1, St_bind at 1. rewrite Hc1.
    unfold mbind at 1, St_bind at 1. rewrite Hc2.
    by destruct (str_lt key p). }
  split.
  - intros Hnone. rewrite Hnone in Hstep.
    assert (get_inclusion_proof (S fuel) s key T = (Raise AttributeError, T2))
      as Hgip.
    { rewrite Hstep. by destruct fuel. }
    exists T2. split; [done|].
    assert (getitem (S fuel) s key T = (Raise AttributeError, T2)) as Hgi.
    { unfold getitem. unfold mbind at 1, St_bind at 1. by rewrite Hgip. }
    split; [done|]. unfold contains. by rewrite Hgi.
  - intros k ph Hleaf Hsib. rewrite Hleaf, Hsib in Hstep.
    exists T2. rewrite Hstep. by destruct fuel.
Qed.

End TrustedCache.

(** ** More on the committed tree *)

Section CommittedShape.

Hypothesis hash_object_inj :
  forall a b, hash_object a = hash_object b -> a = b.
Hypothesis hash_object_nonempty : forall b, truthy (hash_object b) = true.
Hypothesis decode_encode : forall n, decode (encode n) = Some n.

(** Everything [commit] establishes when it returns a tree. *)
Lemma commit_inv b s T b' s' :
  commit (b, s) = (Ok T, (b', s')) ->
  exists t,
    make_subtree (sorted_by_key (items b)) = Ok (flatten t) /\
    merkle t /\
    leaves t = ((fun kv => (kv.1, hash_object kv.2)) <$> sorted_by_key (items b)) /\
    b' = b /\
    T = Tree_init (hash_object (encode (node_of t))) /\
    s' = add_all ((encode <$> flatten t) ++ (items b).*2) s /\
    (forall n, n ∈ flatten t -> s' !! hash_object (encode n) = Some (encode n)) /\
    (forall v, v ∈ (items b).*2 -> s' !! hash_object v = Some v) /\
    resolve s' (_cache T) (root T) = Ok (Some (node_of t)) /\
    readable s' (_cache T) t /\
    depth t < length (items b).
Proof.
  intros Hc. pose proof (commit_Ok_nonempty _ _ _ _ Hc) as Hne.
  destruct (make_subtree_tree (sorted_by_key (items b)))
    as (t & Hmk & Hm & Hleaves & _); [by apply sorted_by_key_nonempty|].
  exists t. pose proof Hmk as Hmk'. rewrite flatten_head in Hmk'.
  rewrite (commit_eq _ _ _ _ Hmk'), <-flatten_head, <-add_all_app in Hc.
  injection Hc as <- <- <-.
  assert (forall n, n ∈ flatten t ->
            add_all ((encode <$> flatten t) ++ (items b).*2) s
              !! hash_object (encode n) = Some (encode n)) as Hnodes.
  { intros n Hn. apply add_all_lookup, elem_of_app; [done|]. left.
    by apply list_elem_of_fmap_2. }
  split_and!; try done.
  - intros v Hv. apply add_all_lookup, elem_of_app; [done|]. by right.
  - apply resolve_stored; [done|]. apply Hnodes. rewrite flatten_head. left.
  - by apply readable_stored.
  - pose proof (flatten_depth t) as Hlt.
    by rewrite Hleaves, length_fmap, sorted_by_key_length in Hlt.
Qed.

(** X5.  [commit] leaves every node of the tree and every staged payload in
    the store under its hash: [object_store.get] returns the payload with
    the integrity check on or off, and [get_node_by_hash] on the fresh tree
    returns each node. *)
Theorem commit_stores_nodes_and_payloads b s T b' s' :
  commit (b, s) = (Ok T, (b', s')) ->
  (forall k v chk, (k, v) ∈ items b ->
     store_get s' (hash_object v) chk = Ok (Some v)) /\
  (forall n nodes,
     make_subtree (sorted_by_key (items b)) = Ok nodes -> n ∈ nodes ->
     (get_node_by_hash s' (hash_object (encode n)) T).1 = Ok (Some n)).
Proof.
  intros Hc.
  destruct (commit_inv _ _ _ _ _ Hc)
    as (t & Hmk & _ & _ & _ & -> & _ & Hnodes & Hpay & _).
  split.
  - intros k v chk Hkv. apply store_get_stored, Hpay.
    apply list_elem_of_fmap. by exists (k, v).
  - intros n nodes Hmk' Hn. rewrite Hmk in Hmk'. injection Hmk' as <-.
    destruct (get_node_by_hash_spec s' (hash_object (encode n))
                (Tree_init (hash_object (encode (node_of t)))))
      as (T' & -> & _). simpl.
    apply resolve_stored; auto.
Qed.

(** X6.  A lookup in the tree committed from [n] items needs no more loop
    iterations than the binary logarithm of [n], rounded up: with that many
    the traversal returns, its path is one node longer than its closure, and
    the closure has at most that many nodes. *)
Theorem lookup_takes_log_iterations b s T b' s' key f :
  commit (b, s) = (Ok T, (b', s')) ->
  length (items b) <= 2 ^ f ->
  exists path closure T1,
    get_inclusion_proof f s' key T = (Ok (path, closure), T1) /\
    length path = S (length closure) /\
    length closure <= f.
Proof.
  intros Hc Hf.
  destruct (commit_inv _ _ _ _ _ Hc)
    as (t & Hmk & _ & _ & _ & _ & _ & _ & _ & Hroot & Hr & _).
  assert (depth t <= f) as Hd.
  { eapply depth_le_log; [exact Hmk|]. by rewrite sorted_by_key_length. }
  destruct (get_inclusion_proof_spec s' t f key T Hroot Hr Hd) as (T1 & Hg & _).
  destruct (spec_inclusion_proof_shape t key) as [Hlen Hcl].
  destruct (spec_inclusion_proof t key) as [path closure]. simpl in *.
  exists path, closure, T1. split_and!; [done..|lia].
Qed.

(** X7.  The proof material of a committed tree reproduces its root: the
    first node of the path hashes to the tree's root hash, every internal
    node of the path holds the hash of the next path node on the side the
    key takes and the hash of the matching closure node on the other side,
    and the path ends in a leaf exactly when the closure is used up. *)
Theorem inclusion_proof_links_to_root b s T b' s' key fuel :
  commit (b, s) = (Ok T, (b', s')) ->
  length (items b) <= fuel ->
  exists path closure T1,
    get_inclusion_proof fuel s' key T = (Ok (path, closure), T1) /\
    proof_links (root T) key path closure.
Proof.
  intros Hc Hf.
  destruct (commit_inv _ _ _ _ _ Hc)
    as (t & _ & Hm & _ & _ & HT & _ & _ & _ & Hroot & Hr & Hd).
  destruct (get_inclusion_proof_spec s' t fuel key T Hroot Hr) as (T1 & Hg & _);
    [lia|].
  pose proof (spec_inclusion_proof_links t key Hm) as Hlinks.
  destruct (spec_inclusion_proof t key) as [path closure]. simpl in *.
  exists path, closure, T1. split; [done|]. by rewrite HT.
Qed.

(** X8.  A lookup never returns a payload that was not staged for the key:
    when [__getitem__] returns on a committed tree, it returns the payload
    staged for exactly that key. *)
Theorem getitem_returns_only_staged b s T b' s' key fuel r T' :
  commit (b, s) = (Ok T, (b', s')) ->
  length (items b) <= fuel ->
  getitem fuel s' key T = (Ok r, T') ->
  exists v, r = Some v /\ (key, v) ∈ items b.
Proof.
  intros Hc Hf Hg.
  destruct (commit_inv _ _ _ _ _ Hc)
    as (t & _ & _ & Hleaves & _ & _ & _ & _ & Hpay & Hroot & Hr & Hd).
  destruct (getitem_spec s' t fuel key T Hroot Hr) as (T2 & Hg2); [lia|].
  rewrite Hg in Hg2. injection Hg2 as Hres _.
  destruct (terminal_leaf_staged b t key Hleaves) as (v & Hkv & Hph).
  destruct (decide ((terminal_leaf t key).1 = key)) as [Heq|]; [|done].
  rewrite Hph, (store_get_stored s' v) in Hres.
  2:{ apply Hpay, list_elem_of_fmap. by eexists (_, v). }
  injection Hres as ->. exists v. by rewrite <-Heq at 1.
Qed.

(** X9.  On a committed tree [__contains__] never raises: it returns a
    boolean, [True] only for a staged key, hence [False] for every key that
    was not staged. *)
Theorem contains_returns_a_boolean b s T b' s' key fuel :
  commit (b, s) = (Ok T, (b', s')) ->
  length (items b) <= fuel ->
  exists c T',
    contains fuel s' key T = (Ok c, T') /\
    (c = true -> key ∈ (items b).*1) /\
    (key ∉ (items b).*1 -> c = false).
Proof.
  intros Hc Hf.
  destruct (commit_inv _ _ _ _ _ Hc)
    as (t & _ & _ & Hleaves & _ & _ & _ & _ & Hpay & Hroot & Hr & Hd).
  destruct (getitem_spec s' t fuel key T Hroot Hr) as (T2 & Hg); [lia|].
  destruct (terminal_leaf_staged b t key Hleaves) as (v & Hkv & Hph).
  unfold contains. rewrite Hg.
  destruct (decide ((terminal_leaf t key).1 = key)) as [Heq|Hne].
  - rewrite Hph, (store_get_stored s' v).
    2:{ apply Hpay, list_elem_of_fmap. by eexists (_, v). }
    assert (key ∈ (items b).*1) as Hin.
    { apply list_elem_of_fmap. exists ((terminal_leaf t key).1, v).
      split; [by symmetry|done]. }
    exists true, T2. split_and!; [done|done|]. by intros [].
  - exists false, T2. split_and!; done.
Qed.

Lemma warm_cache_inv (s' : store_t) t fuel (T : Tree) (earlier : list string) T0 :
  readable s' (_cache T) t ->
  resolve s' (_cache T) (root T) = Ok (Some (node_of t)) ->
  depth t <= fuel ->
  root T0 = root T ->
  (forall h, resolve s' (_cache T0) h = resolve s' (_cache T) h) ->
  let T1 := foldl (fun T k => (getitem fuel s' k T).2) T0 earlier in
  root T1 = root T /\
  forall h, resolve s' (_cache T1) h = resolve s' (_cache T) h.
Proof.
  intros Hr Hroot Hd. revert T0.
  induction earlier as [|k earlier IH]; intros T0 Hroot0 Hext0; simpl; [done|].
  destruct (getitem_spec_ext s' t fuel k T0) as (T' & -> & _ & Hroot' & Hext');
    [by rewrite Hext0, Hroot0|by eapply readable_ext|done|].
  simpl. apply IH; [congruence|]. intros h. by rewrite Hext', Hext0.
Qed.

(** X10.  Lookups do not interfere: on a committed tree, whatever lookups
    were made before and whatever they put in the cache, [__getitem__] and
    [get_inclusion_proof] give the outcome they give on the fresh tree. *)
Theorem lookups_do_not_interfere b s T b' s' earlier key fuel :
  commit (b, s) = (Ok T, (b', s')) ->
  length (items b) <= fuel ->
  let T1 := foldl (fun T k => (getitem fuel s' k T).2) T earlier in
  (getitem fuel s' key T1).1 = (getitem fuel s' key T).1 /\
  (get_inclusion_proof fuel s' key T1).1
    = (get_inclusion_proof fuel s' key T).1.
Proof.
  intros Hc Hf T1.
  destruct (commit_inv _ _ _ _ _ Hc)
    as (t & _ & _ & _ & _ & _ & _ & _ & _ & Hroot & Hr & Hd).
  assert (depth t <= fuel) as Hd' by lia.
  destruct (warm_cache_inv s' t fuel T earlier T Hr Hroot Hd' eq_refl)
    as [Hroot1 Hext1]; [done|]. fold T1 in Hroot1, Hext1.
  destruct (getitem_spec_ext s' t fuel key T Hroot Hr Hd') as (Ta & -> & -> & _).
  destruct (getitem_spec_ext s' t fuel key T1) as (Tb & -> & -> & _);
    [by rewrite Hext1, Hroot1|by eapply readable_ext|done|].
  done.
Qed.

(** X11.  A builder with a single item commits to a tree whose root is the
    leaf itself: for every key the inclusion proof is the one-node path with
    an empty closure, whatever the bound on the iterations; the staged key
    is found with its payload and every other key raises [KeyError]. *)
Theorem single_item_tree b s k v key fuel :
  items b = [(k, v)] ->
  exists s' T1 T2,
    commit (b, s)
      = (Ok (Tree_init
               (hash_object (encode (TreeLeaf k (hash_object v))))),
         (b, s')) /\
    get_inclusion_proof fuel s' key
      (Tree_init (hash_object (encode (TreeLeaf k (hash_object v)))))
      = (Ok ([TreeLeaf k (hash_object v)], []), T1) /\
    getitem fuel s' key
      (Tree_init (hash_object (encode (TreeLeaf k (hash_object v)))))
      = (if decide (k = key) then Ok (Some v) else Raise KeyError, T2).
Proof.
  intros Hb.
  assert (make_subtree (sorted_by_key (items b))
          = Ok (flatten (LLeaf k (hash_object v)))) as Hmk.
  { by rewrite Hb. }
  destruct (commit_lookup hash_object_inj hash_object_nonempty decode_encode
              b s (LLeaf k (hash_object v)) Hmk I)
    as (T & s' & Hc & -> & Hpay & Hroot & Hr).
  destruct (getitem_spec_ext s' (LLeaf k (hash_object v)) fuel key _ Hroot Hr)
    as (T2 & Hg & Hp & _); [simpl; lia|].
  cbn [node_of] in *.
  exists s', T2, T2. split_and!; [done|done|].
  rewrite Hg. simpl. destruct (decide (k = key)); [|done].
  rewrite (store_get_stored s' v); [done|].
  apply Hpay. rewrite Hb. simpl. left.
Qed.

(** The pivot prefix cut for two neighbouring keys separates them. *)
Lemma pivot_above_left a b cp :
  str_lt a b = true -> commonprefix_loop a b = Ok cp ->
  str_lt a (slice_to (S (String.length cp)) b) = true.
Proof.
  revert b cp. induction a as [|c a IH]; intros [|d b] cp Hab Hcp;
    try done.
  rewrite str_lt_cons in Hab. simpl in Hcp.
  destruct (decide (c = d)) as [->|Hne].
  - rewrite ascii_compare_refl in Hab.
    destruct (commonprefix_loop a b) as [cp'| |] eqn:Hcp'; try done.
    injection Hcp as <-. cbn [String.length slice_to].
    rewrite str_lt_cons, ascii_compare_refl. by apply IH.
  - injection Hcp as <-. cbn [String.length slice_to].
    rewrite str_lt_cons. destruct (Ascii.compare c d) eqn:Hc; try done.
    by apply Ascii.compare_eq_iff in Hc.
Qed.

Lemma two_sorted_items_tree a va b vb :
  str_lt a b = true ->
  exists p,
    make_subtree [(a, va); (b, vb)]
      = Ok (flatten
              (LNode p (hash_object (encode (TreeLeaf a (hash_object va))))
                       (hash_object (encode (TreeLeaf b (hash_object vb))))
                       (LLeaf a (hash_object va)) (LLeaf b (hash_object vb))))
    /\ str_lt a p = true /\ str_lt b p = false.
Proof.
  intros Hab. pose proof (str_lt_asym _ _ Hab) as Hba.
  destruct (commonprefix_loop_spec a b Hba) as (cp & Hcp & _).
  exists (slice_to (S (String.length cp)) b). split_and!.
  - rewrite make_subtree_eq by (simpl; lia). unfold assemble.
    cbn [length Nat.div Nat.divmod fst lookup list_lookup take drop].
    rewrite !make_subtree_single. cbn -[commonprefix].
    unfold commonprefix, str_min, str_max. cbn [fold_left].
    rewrite Hab, Hba, !str_lt_irrefl, Hcp. cbn.
    by rewrite Nat.add_1_r.
  - by apply pivot_above_left.
  - apply is_prefix_le, slice_to_prefix.
Qed.

Lemma sorted_two k1 v1 k2 v2 :
  k1 <> k2 ->
  exists a va b vb,
    sorted_by_key [(k1, v1); (k2, v2)] = [(a, va); (b, vb)] /\
    str_lt a b = true.
Proof.
  intros Hne. simpl. destruct (str_lt k2 k1) eqn:H21.
  - by eexists _, _, _, _.
  - eexists _, _, _, _. split; [done|].
    destruct (str_lt k1 k2) eqn:H12; [done|].
    destruct Hne. by apply str_le_antisym.
Qed.

(** X12.  With at most two items the round trip holds: a builder holding
    two distinct keys commits to a tree in which both keys are found, each
    with its own payload. *)
Theorem two_items_roundtrip b s k1 v1 k2 v2 fuel :
  items b = [(k1, v1); (k2, v2)] ->
  k1 <> k2 ->
  2 <= fuel ->
  exists T s' T1 T2,
    commit (b, s) = (Ok T, (b, s')) /\
    getitem fuel s' k1 T = (Ok (Some v1), T1) /\
    getitem fuel s' k2 T = (Ok (Some v2), T2).
Proof.
  intros Hb Hne Hf.
  destruct (sorted_two k1 v1 k2 v2 Hne) as (a & va & c & vc & Hs & Hac).
  destruct (two_sorted_items_tree a va c vc Hac) as (p & Hmk & Hap & Hcp).
  rewrite <-Hs, <-Hb in Hmk.
  assert (NoDup (items b).*1) as Hnd.
  { rewrite Hb. simpl. apply NoDup_cons. split; [set_solver|].
    apply NoDup_singleton. }
  set (t := LNode p _ _ _ _) in Hmk.
  assert (merkle t) as Hm by done.
  assert (leaves t = ((fun kv => (kv.1, hash_object kv.2)) <$>
                        sorted_by_key (items b))) as Hleaves.
  { by rewrite Hb, Hs. }
  assert (prefix_ordered t = true) as Hord.
  { simpl. by rewrite Hap, Hcp. }
  destruct (roundtrip_when_prefix_ordered hash_object_inj hash_object_nonempty
              decode_encode b s t k1 v1 fuel Hmk Hm Hleaves Hord Hnd)
    as (T & s' & T1 & Hc & Hg1 & _); [rewrite Hb; set_solver|by rewrite Hb|].
  destruct (roundtrip_when_prefix_ordered hash_object_inj hash_object_nonempty
              decode_encode b s t k2 v2 fuel Hmk Hm Hleaves Hord Hnd)
    as (T' & s'' & T2 & Hc' & Hg2 & _); [rewrite Hb; set_solver|by rewrite Hb|].
  rewrite Hc in Hc'. injection Hc' as <- <-.
  by exists T, s', T1, T2.
Qed.

(** X13.  The round trip holds wherever the prefix ordering invariant does:
    if the tree built from the staged items is prefix-ordered, every staged
    key is found in the committed tree, with the payload staged for it. *)
Theorem roundtrip_in_prefix_ordered_tree b s t key v fuel :
  make_subtree (sorted_by_key (items b)) = Ok (flatten t) ->
  prefix_ordered t = true ->
  NoDup (items b).*1 ->
  (key, v) ∈ items b ->
  length (items b) <= fuel ->
  exists T s' T',
    commit (b, s) = (Ok T, (b, s')) /\
    getitem fuel s' key T = (Ok (Some v), T') /\
    contains fuel s' key T = (Ok true, T').
Proof.
  intros Hmk Hord Hnd Hin Hf.
  destruct (make_subtree_tree (sorted_by_key (items b)))
    as (t' & Hmk' & Hm & Hleaves & _).
  { by eapply make_subtree_Ok_nonempty. }
  rewrite Hmk in Hmk'. injection Hmk' as Heq. apply flatten_inj in Heq as <-.
  by eapply roundtrip_when_prefix_ordered.
Qed.

Lemma add_all_preserves bs (s : store_t) b :
  s !! hash_object b = Some b -> add_all bs s !! hash_object b = Some b.
Proof.
  intros Hs. induction bs as [|x bs IH] using rev_ind; [done|].
  rewrite add_all_snoc.
  destruct (decide (hash_object x = hash_object b)) as [Heq|Hne].
  - rewrite Heq, lookup_insert_eq. f_equal. by apply hash_object_inj.
  - by rewrite lookup_insert_ne.
Qed.

Lemma add_all_id bs (s : store_t) :
  (forall b, b ∈ bs -> s !! hash_object b = Some b) -> add_all bs s = s.
Proof.
  induction bs as [|x bs IH] using rev_ind; intros Hs; [done|].
  rewrite add_all_snoc, IH.
  - apply insert_id, Hs, elem_of_app. right. left.
  - intros b Hb. apply Hs, elem_of_app. by left.
Qed.

(** [commit], with its loops carried out. *)
Lemma commit_unfold b (s : store_t) :
  commit (b, s) =
  match make_subtree (sorted_by_key (items b)) with
  | Ok nodes =>
      (match nodes with
       | [] => Raise IndexError
       | n :: _ => Ok (Tree_init (hash_object (encode n)))
       end,
       (b, add_all ((encode <$> nodes) ++ (items b).*2) s))
  | Raise e => (Raise e, (b, s))
  | OutOfFuel => (OutOfFuel, (b, s))
  end.
Proof.
  unfold commit.
  unfold mbind at 1, St_bind at 1, st_get at 1. cbn [fst snd].
  unfold mbind at 1, St_bind at 1, st_lift at 1.
  destruct (make_subtree (sorted_by_key (items b))) as [nodes|e|]; [|done..].
  unfold mbind at 1, St_bind at 1.
  rewrite (for_each_modify
             (fun node (w : TreeBuilder * store_t) =>
                (w.1, (store_add (encode node) w.2).2))).
  rewrite (foldl_store_add encode).
  unfold mbind at 1, St_bind at 1.
  rewrite (for_each_modify
             (fun obj (w : TreeBuilder * store_t) =>
                (w.1, (store_add obj w.2).2))).
  rewrite (foldl_store_add id), list_fmap_id, add_all_app.
  by destruct nodes.
Qed.

(** X14.  A later [commit] on the same store does no harm to an earlier
    tree: whatever the second builder holds, every lookup in the first tree
    has the same outcome after the second commit as before it. *)
Theorem earlier_tree_survives_commit b1 s T1 b1' s1 b2 r2 b2' s2 key fuel :
  commit (b1, s) = (Ok T1, (b1', s1)) ->
  commit (b2, s1) = (r2, (b2', s2)) ->
  length (items b1) <= fuel ->
  (getitem fuel s2 key T1).1 = (getitem fuel s1 key T1).1 /\
  (get_inclusion_proof fuel s2 key T1).1
    = (get_inclusion_proof fuel s1 key T1).1.
Proof.
  intros Hc1 Hc2 Hf.
  destruct (commit_inv _ _ _ _ _ Hc1)
    as (t & _ & Hm & Hleaves & _ & HT & _ & Hnodes & Hpay & Hroot & Hr & Hd).
  assert (exists bs, s2 = add_all bs s1) as [bs ->].
  { rewrite commit_unfold in Hc2.
    destruct (make_subtree (sorted_by_key (items b2))) as [nodes|e|];
      injection Hc2 as _ _ <-; [by eexists|by exists []..]. }
  assert (resolve (add_all bs s1) (_cache T1) (root T1) = Ok (Some (node_of t))
          /\ readable (add_all bs s1) (_cache T1) t) as [Hroot2 Hr2].
  { subst T1. simpl. split.
    - apply resolve_stored; [done|]. apply add_all_preserves, Hnodes.
      rewrite flatten_head. left.
    - apply readable_stored; [done..|].
      intros n Hn. by apply add_all_preserves, Hnodes. }
  destruct (getitem_spec_ext s1 t fuel key T1 Hroot Hr) as (Ta & -> & -> & _);
    [lia|].
  destruct (getitem_spec_ext (add_all bs s1) t fuel key T1 Hroot2 Hr2)
    as (Tb & -> & -> & _); [lia|].
  cbn [fst]. split; [|done].
  destruct (decide ((terminal_leaf t key).1 = key)); [|done].
  destruct (terminal_leaf_staged b1 t key Hleaves) as (v & Hkv & ->).
  assert (s1 !! hash_object v = Some v) as Hv.
  { apply Hpay, list_elem_of_fmap. by eexists (_, v). }
  rewrite !store_get_stored; [done|done|by apply add_all_preserves].
Qed.

(** X15.  Committing again what is already committed changes nothing: a
    second [commit] of the same builder returns the outcome of the first and
    leaves the store exactly as the first left it. *)
Theorem commit_again_leaves_store b s r b' s1 :
  commit (b, s) = (r, (b', s1)) ->
  commit (b, s1) = (r, (b, s1)).
Proof.
  rewrite !commit_unfold.
  destruct (make_subtree (sorted_by_key (items b))) as [nodes|e|];
    intros [= <- <- <-]; [|done..].
  f_equal. f_equal. apply add_all_id.
  intros x Hx. by apply add_all_lookup.
Qed.

(** X16.  The cache is trusted: once a key has been looked up in a
    committed tree, looking it up again reads no node from the store.  The
    second traversal returns the same path and closure whatever the store
    holds by then, and leaves the cache as it is. *)
Theorem repeated_lookup_is_served_from_cache b s T b' s' key fuel s2 :
  commit (b, s) = (Ok T, (b', s')) ->
  length (items b) <= fuel ->
  exists proof T1,
    get_inclusion_proof fuel s' key T = (Ok proof, T1) /\
    get_inclusion_proof fuel s2 key T1 = (Ok proof, T1).
Proof.
  intros Hc Hf.
  destruct (commit_inv _ _ _ _ _ Hc)
    as (t & _ & _ & _ & _ & _ & _ & _ & _ & Hroot & Hr & Hd).
  destruct (get_inclusion_proof_cached s' s2 t fuel key T Hroot Hr)
    as (T1 & H1 & H2); [lia|].
  by exists (spec_inclusion_proof t key), T1.
Qed.

End CommittedShape.

End Hippiepug.

(** ** The reference collaborators are sound *)

Lemma reference_hash_inj a b :
  Reference.hash_object a = Reference.hash_object b -> a = b.
Proof.
  unfold Reference.hash_object. intros [= H].
  apply (f_equal list_byte_of_string) in H.
  by rewrite !list_byte_of_string_of_list_byte in H.
Qed.

Lemma reference_hash_nonempty b : truthy (Reference.hash_object b) = true.
Proof. reflexivity. Qed.

Lemma reference_dec_enc_str s rest :
  Reference.dec_str (Reference.enc_str s rest) = Some (s, rest).
Proof.
  induction s as [|c s IH]; [done|].
  cbn [Reference.enc_str Reference.dec_str].
  by rewrite IH, ascii_of_byte_of_ascii.
Qed.

Lemma reference_dec_enc_opt o rest :
  Reference.dec_opt (Reference.enc_opt o rest) = Some (o, rest).
Proof.
  destruct o as [h|]; [|done].
  cbn [Reference.enc_opt Reference.dec_opt].
  by rewrite reference_dec_enc_str.
Qed.

Lemma reference_decode_encode n :
  Reference.decode (Reference.encode n) = Some n.
Proof.
  destruct n as [k ph|p l r]; cbn [Reference.encode Reference.decode].
  - by rewrite !reference_dec_enc_str.
  - by rewrite reference_dec_enc_str, !reference_dec_enc_opt.
Qed.

(** ** The theorems at concrete inputs *)

Lemma pivot_prefix_is_truncated_midpoint_witness :
  exists mid_key mid_obj left_root left_rest right_root right_rest
         common_prefix left_hash right_hash,
    items shared_prefix_builder !! 1 = Some (mid_key, mid_obj) /\
    make_subtree Reference.hash_object Reference.encode
      (take 1 (items shared_prefix_builder)) = Ok (left_root :: left_rest) /\
    make_subtree Reference.hash_object Reference.encode
      (drop 1 (items shared_prefix_builder)) = Ok (right_root :: right_rest) /\
    is_lcp common_prefix
      [mid_key; get_node_key left_root; get_node_key right_root] /\
    make_subtree Reference.hash_object Reference.encode
      (items shared_prefix_builder) =
      Ok (TreeNode
            (slice_to (Nat.max 1 (String.length common_prefix + 1)) mid_key)
            left_hash right_hash
          :: (left_root :: left_rest) ++ (right_root :: right_rest)).
Proof.
  apply (pivot_prefix_is_truncated_midpoint
           Reference.hash_object Reference.encode
           (items shared_prefix_builder)).
  simpl. lia.
Defined.

Lemma make_subtree_splits_at_midpoint_witness :
  exists pivot_item left_nodes right_nodes tl tr pivot,
    items shared_prefix_builder !! 1 = Some pivot_item /\
    length (take 1 (items shared_prefix_builder)) = 1 /\
    drop 1 (items shared_prefix_builder)
      = pivot_item :: drop 2 (items shared_prefix_builder) /\
    drop 1 (items shared_prefix_builder) <> [] /\
    make_subtree Reference.hash_object Reference.encode
      (take 1 (items shared_prefix_builder)) = Ok left_nodes /\
    make_subtree Reference.hash_object Reference.encode
      (drop 1 (items shared_prefix_builder)) = Ok right_nodes /\
    left_nodes = flatten tl /\ right_nodes = flatten tr /\
    make_subtree Reference.hash_object Reference.encode
      (items shared_prefix_builder) =
      Ok ([TreeNode pivot
             (Some (Reference.hash_object (Reference.encode (node_of tl))))
             (Some (Reference.hash_object (Reference.encode (node_of tr))))]
          ++ left_nodes ++ right_nodes) /\
    [TreeNode pivot
       (Some (Reference.hash_object (Reference.encode (node_of tl))))
       (Some (Reference.hash_object (Reference.encode (node_of tr))))]
      ++ left_nodes ++ right_nodes
    = flatten (LNode pivot
                 (Reference.hash_object (Reference.encode (node_of tl)))
                 (Reference.hash_object (Reference.encode (node_of tr)))
                 tl tr).
Proof.
  apply (make_subtree_splits_at_midpoint
           Reference.hash_object Reference.encode
           (items shared_prefix_builder)).
  simpl. lia.
Defined.

Lemma internal_nodes_have_both_hashes_witness :
  (forall n,
     n ∈ flatten (shared_prefix_tree Reference.hash_object Reference.encode) ->
     match n with
     | TreeLeaf _ _ => True
     | TreeNode _ left_hash right_hash =>
         exists l r,
           l ∈ flatten (shared_prefix_tree Reference.hash_object Reference.encode) /\
           r ∈ flatten (shared_prefix_tree Reference.hash_object Reference.encode) /\
           left_hash = Some (Reference.hash_object (Reference.encode l)) /\
           right_hash = Some (Reference.hash_object (Reference.encode r))
     end) /\
  (forall key obj,
     items shared_prefix_builder = [(key, obj)] ->
     flatten (shared_prefix_tree Reference.hash_object Reference.encode)
       = [TreeLeaf key (Reference.hash_object obj)]).
Proof.
  apply (internal_nodes_have_both_hashes
           Reference.hash_object Reference.encode
           (items shared_prefix_builder)).
  reflexivity.
Defined.

Lemma commit_empty_raises_witness :
  commit Reference.hash_object Reference.encode (TreeBuilder_init, ∅)
  = (Raise ValueError, (TreeBuilder_init, ∅)).
Proof.
  apply (commit_empty_raises Reference.hash_object Reference.encode
           TreeBuilder_init ∅).
  reflexivity.
Defined.

Lemma commit_deterministic_witness :
  exists T1 s1 T2 s2,
    commit Reference.hash_object Reference.encode
      (shared_prefix_builder, ∅) = (Ok T1, (shared_prefix_builder, s1)) /\
    commit Reference.hash_object Reference.encode
      (setitem "aa" ["1"%byte]
         (setitem "b" ["3"%byte]
            (setitem "ab" ["2"%byte] TreeBuilder_init)), s1)
      = (Ok T2,
         (setitem "aa" ["1"%byte]
            (setitem "b" ["3"%byte]
               (setitem "ab" ["2"%byte] TreeBuilder_init)), s2)) /\
    root T1 = root T2.
Proof.
  apply (commit_deterministic Reference.hash_object Reference.encode
           shared_prefix_builder
           (setitem "aa" ["1"%byte]
              (setitem "b" ["3"%byte]
                 (setitem "ab" ["2"%byte] TreeBuilder_init))) ∅).
  - apply (bool_decide_unpack (NoDup ["aa"; "ab"; "b"])). vm_compute. exact I.
  - exact (Permutation_cons_append [("ab", ["2"%byte]); ("b", ["3"%byte])]
             ("aa", ["1"%byte])).
  - discriminate.
Defined.

Lemma commit_keeps_items_witness :
  exists T1 s1 T2 s2,
    commit Reference.hash_object Reference.encode
      (shared_prefix_builder, ∅) = (Ok T1, (shared_prefix_builder, s1)) /\
    commit Reference.hash_object Reference.encode
      (shared_prefix_builder, s1) = (Ok T2, (shared_prefix_builder, s2)) /\
    root T2 = root T1.
Proof.
  apply (commit_keeps_items Reference.hash_object Reference.encode
           shared_prefix_builder ∅).
  discriminate.
Defined.

Lemma get_inclusion_proof_follows_pivots_witness :
  exists T',
    get_inclusion_proof Reference.hash_object Reference.decode 2
      (commit Reference.hash_object Reference.encode
         (shared_prefix_builder, ∅)).2.2
      "aa"
      (Tree_init
         (Reference.hash_object
            (Reference.encode
               (node_of (shared_prefix_tree Reference.hash_object
                           Reference.encode)))))
    = (Ok (spec_inclusion_proof
             (shared_prefix_tree Reference.hash_object Reference.encode) "aa"),
       T') /\
    head (spec_inclusion_proof
            (shared_prefix_tree Reference.hash_object Reference.encode) "aa").1
    = Some (node_of (shared_prefix_tree Reference.hash_object Reference.encode)) /\
    exists k ph,
      last (spec_inclusion_proof
              (shared_prefix_tree Reference.hash_object Reference.encode) "aa").1
      = Some (TreeLeaf k ph).
Proof.
  apply (get_inclusion_proof_follows_pivots
           Reference.hash_object Reference.decode
           (commit Reference.hash_object Reference.encode
              (shared_prefix_builder, ∅)).2.2
           (shared_prefix_tree Reference.hash_object Reference.encode)
           2 "aa").
  - vm_compute. reflexivity.
  - simpl readable. repeat split; vm_compute; reflexivity.
  - simpl. lia.
Defined.

Lemma lookup_decided_by_terminal_leaf_witness :
  exists path closure k ph T1 T2 r,
    get_inclusion_proof Reference.hash_object Reference.decode 3
      (commit Reference.hash_object Reference.encode
         (shared_prefix_builder, ∅)).2.2
      "qux"
      (Tree_init
         (Reference.hash_object
            (Reference.encode
               (node_of (shared_prefix_tree Reference.hash_object
                           Reference.encode)))))
    = (Ok (path, closure), T1) /\
    last path = Some (TreeLeaf k ph) /\
    getitem Reference.hash_object Reference.decode true 3
      (commit Reference.hash_object Reference.encode
         (shared_prefix_builder, ∅)).2.2
      "qux"
      (Tree_init
         (Reference.hash_object
            (Reference.encode
               (node_of (shared_prefix_tree Reference.hash_object
                           Reference.encode)))))
    = (r, T2) /\
    ((exists v, r = Ok v) <-> k = "qux") /\
    (k <> "qux" -> r = Raise KeyError) /\
    ("qux" ∉ (items shared_prefix_builder).*1 ->
     k <> "qux" /\ r = Raise KeyError).
Proof.
  apply (lookup_decided_by_terminal_leaf
           Reference.hash_object Reference.encode Reference.decode true
           reference_hash_inj reference_hash_nonempty
           reference_decode_encode
           shared_prefix_builder ∅ _ shared_prefix_builder).
  - vm_compute. reflexivity.
  - simpl. lia.
Defined.

Lemma inserted_key_not_found_witness :
  exists T s' T',
    commit Reference.hash_object Reference.encode (shared_prefix_builder, ∅)
      = (Ok T, (shared_prefix_builder, s')) /\
    dict_get "aa" (items shared_prefix_builder) = Some ["1"%byte] /\
    getitem Reference.hash_object Reference.decode true 3 s' "aa" T
      = (Raise KeyError, T') /\
    contains Reference.hash_object Reference.decode true 3 s' "aa" T
      = (Ok false, T').
Proof.
  exact (inserted_key_not_found
           Reference.hash_object Reference.encode Reference.decode true
           reference_hash_inj reference_hash_nonempty
           reference_decode_encode ∅).
Defined.

(** ** The further theorems at concrete inputs *)

Local Abbreviation ref_hash := Reference.hash_object.
Local Abbreviation ref_encode := Reference.encode.
Local Abbreviation ref_decode := Reference.decode.
Local Abbreviation ref_tree :=
  (Tree_init
     (ref_hash (ref_encode (node_of (shared_prefix_tree ref_hash ref_encode))))).
Local Abbreviation ref_store :=
  (commit ref_hash ref_encode (shared_prefix_builder, ∅)).2.2.

Lemma make_subtree_nodes_and_leaves_witness :
  length (flatten (shared_prefix_tree ref_hash ref_encode))
    = 2 * length (items shared_prefix_builder) - 1 /\
  omap leaf_of (flatten (shared_prefix_tree ref_hash ref_encode))
    = (fun kv => (kv.1, ref_hash kv.2)) <$> items shared_prefix_builder.
Proof.
  apply (make_subtree_nodes_and_leaves ref_hash ref_encode
           (items shared_prefix_builder)).
  reflexivity.
Defined.

Lemma tampered_block_is_rejected_witness :
  get_node_by_hash ref_hash ref_decode {["r" := [x00]]} "r" (Tree_init "r")
    = (Raise CorruptionError, Tree_init "r") /\
  ("r" = root (Tree_init "r") ->
   get_inclusion_proof ref_hash ref_decode 1 {["r" := [x00]]} "k"
     (Tree_init "r") = (Raise CorruptionError, Tree_init "r") /\
   getitem ref_hash ref_decode true 1 {["r" := [x00]]} "k" (Tree_init "r")
     = (Raise CorruptionError, Tree_init "r") /\
   contains ref_hash ref_decode true 1 {["r" := [x00]]} "k" (Tree_init "r")
     = (Raise CorruptionError, Tree_init "r")).
Proof.
  apply (tampered_block_is_rejected ref_hash ref_decode true
           {["r" := [x00]]} (Tree_init "r") "r" [x00] 1 "k").
  - reflexivity.
  - reflexivity.
  - discriminate.
Defined.

Lemma missing_root_raises_witness :
  get_node_by_hash ref_hash ref_decode ∅ (root (Tree_init "r")) (Tree_init "r")
    = (Ok None, Tree_init "r") /\
  get_inclusion_proof ref_hash ref_decode 1 ∅ "k" (Tree_init "r")
    = (Raise AttributeError, Tree_init "r") /\
  getitem ref_hash ref_decode true 1 ∅ "k" (Tree_init "r")
    = (Raise AttributeError, Tree_init "r") /\
  contains ref_hash ref_decode true 1 ∅ "k" (Tree_init "r")
    = (Raise AttributeError, Tree_init "r").
Proof.
  apply (missing_root_raises ref_hash ref_decode true ∅ (Tree_init "r") 1 "k").
  - reflexivity.
  - reflexivity.
Defined.

Lemma commit_stores_nodes_and_payloads_witness :
  (forall k v chk, (k, v) ∈ items shared_prefix_builder ->
     store_get ref_hash ref_store (ref_hash v) chk = Ok (Some v)) /\
  (forall n nodes,
     make_subtree ref_hash ref_encode
       (sorted_by_key (items shared_prefix_builder)) = Ok nodes ->
     n ∈ nodes ->
     (get_node_by_hash ref_hash ref_decode ref_store
        (ref_hash (ref_encode n)) ref_tree).1 = Ok (Some n)).
Proof.
  apply (commit_stores_nodes_and_payloads ref_hash ref_encode ref_decode
           reference_hash_inj reference_hash_nonempty reference_decode_encode
           shared_prefix_builder ∅ ref_tree shared_prefix_builder ref_store).
  vm_compute. reflexivity.
Defined.

Lemma lookup_takes_log_iterations_witness :
  exists path closure T1,
    get_inclusion_proof ref_hash ref_decode 2 ref_store "ab" ref_tree
      = (Ok (path, closure), T1) /\
    length path = S (length closure) /\
    length closure <= 2.
Proof.
  apply (lookup_takes_log_iterations ref_hash ref_encode ref_decode
           reference_hash_inj reference_hash_nonempty reference_decode_encode
           shared_prefix_builder ∅ ref_tree shared_prefix_builder ref_store
           "ab" 2).
  - vm_compute. reflexivity.
  - simpl. lia.
Defined.

Lemma inclusion_proof_links_to_root_witness :
  exists path closure T1,
    get_inclusion_proof ref_hash ref_decode 3 ref_store "ab" ref_tree
      = (Ok (path, closure), T1) /\
    proof_links ref_hash ref_encode (root ref_tree) "ab" path closure.
Proof.
  apply (inclusion_proof_links_to_root ref_hash ref_encode ref_decode
           reference_hash_inj reference_hash_nonempty reference_decode_encode
           shared_prefix_builder ∅ ref_tree shared_prefix_builder ref_store
           "ab" 3).
  - vm_compute. reflexivity.
  - simpl. lia.
Defined.

Lemma getitem_returns_only_staged_witness :
  exists v, Some ["2"%byte] = Some v /\ ("ab", v) ∈ items shared_prefix_builder.
Proof.
  apply (getitem_returns_only_staged ref_hash ref_encode ref_decode true
           reference_hash_inj reference_hash_nonempty reference_decode_encode
           shared_prefix_builder ∅ ref_tree shared_prefix_builder ref_store
           "ab" 3 (Some ["2"%byte])
           (getitem ref_hash ref_decode true 3 ref_store "ab" ref_tree).2).
  - vm_compute. reflexivity.
  - simpl. lia.
  - vm_compute. reflexivity.
Defined.

Lemma contains_returns_a_boolean_witness :
  exists c T',
    contains ref_hash ref_decode true 3 ref_store "qux" ref_tree = (Ok c, T') /\
    (c = true -> "qux" ∈ (items shared_prefix_builder).*1) /\
    ("qux" ∉ (items shared_prefix_builder).*1 -> c = false).
Proof.
  apply (contains_returns_a_boolean ref_hash ref_encode ref_decode true
           reference_hash_inj reference_hash_nonempty reference_decode_encode
           shared_prefix_builder ∅ ref_tree shared_prefix_builder ref_store
           "qux" 3).
  - vm_compute. reflexivity.
  - simpl. lia.
Defined.

Lemma lookups_do_not_interfere_witness :
  (getitem ref_hash ref_decode true 3 ref_store "ab"
     (foldl (fun T k => (getitem ref_hash ref_decode true 3 ref_store k T).2)
            ref_tree ["aa"; "b"])).1
  = (getitem ref_hash ref_decode true 3 ref_store "ab" ref_tree).1 /\
  (get_inclusion_proof ref_hash ref_decode 3 ref_store "ab"
     (foldl (fun T k => (getitem ref_hash ref_decode true 3 ref_store k T).2)
            ref_tree ["aa"; "b"])).1
  = (get_inclusion_proof ref_hash ref_decode 3 ref_store "ab" ref_tree).1.
Proof.
  apply (lookups_do_not_interfere ref_hash ref_encode ref_decode true
           reference_hash_inj reference_hash_nonempty reference_decode_encode
           shared_prefix_builder ∅ ref_tree shared_prefix_builder ref_store
           ["aa"; "b"] "ab" 3).
  - vm_compute. reflexivity.
  - simpl. lia.
Defined.

Lemma single_item_tree_witness :
  exists s' T1 T2,
    commit ref_hash ref_encode
      (setitem "k" ["v"%byte] TreeBuilder_init, ∅)
      = (Ok (Tree_init
               (ref_hash (ref_encode (TreeLeaf "k" (ref_hash ["v"%byte]))))),
         (setitem "k" ["v"%byte] TreeBuilder_init, s')) /\
    get_inclusion_proof ref_hash ref_decode 0 s' "k"
      (Tree_init (ref_hash (ref_encode (TreeLeaf "k" (ref_hash ["v"%byte])))))
      = (Ok ([TreeLeaf "k" (ref_hash ["v"%byte])], []), T1) /\
    getitem ref_hash ref_decode true 0 s' "k"
      (Tree_init (ref_hash (ref_encode (TreeLeaf "k" (ref_hash ["v"%byte])))))
      = (if decide ("k" = "k") then Ok (Some ["v"%byte]) else Raise KeyError,
         T2).
Proof.
  apply (single_item_tree ref_hash ref_encode ref_decode true
           reference_hash_inj reference_hash_nonempty reference_decode_encode
           (setitem "k" ["v"%byte] TreeBuilder_init) ∅ "k" ["v"%byte] "k" 0).
  reflexivity.
Defined.

Lemma two_items_roundtrip_witness :
  exists T s' T1 T2,
    commit ref_hash ref_encode (doctest_builder, ∅)
      = (Ok T, (doctest_builder, s')) /\
    getitem ref_hash ref_decode true 2 s' "foo" T
      = (Ok (Some ["b"%byte; "a"%byte; "r"%byte]), T1) /\
    getitem ref_hash ref_decode true 2 s' "baz" T
      = (Ok (Some ["z"%byte; "e"%byte; "z"%byte]), T2).
Proof.
  apply (two_items_roundtrip ref_hash ref_encode ref_decode true
           reference_hash_inj reference_hash_nonempty reference_decode_encode
           doctest_builder ∅).
  - reflexivity.
  - discriminate.
  - lia.
Defined.

Lemma roundtrip_in_prefix_ordered_tree_witness :
  exists T s' T',
    commit ref_hash ref_encode (doctest_builder, ∅)
      = (Ok T, (doctest_builder, s')) /\
    getitem ref_hash ref_decode true 2 s' "foo" T
      = (Ok (Some ["b"%byte; "a"%byte; "r"%byte]), T') /\
    contains ref_hash ref_decode true 2 s' "foo" T = (Ok true, T').
Proof.
  apply (roundtrip_in_prefix_ordered_tree ref_hash ref_encode ref_decode true
           reference_hash_inj reference_hash_nonempty reference_decode_encode
           doctest_builder ∅ (doctest_tree ref_hash ref_encode)).
  - reflexivity.
  - reflexivity.
  - apply (bool_decide_unpack (NoDup ["foo"; "baz"])). vm_compute. exact I.
  - simpl. left.
  - simpl. lia.
Defined.

Lemma earlier_tree_survives_commit_witness :
  (getitem ref_hash ref_decode true 3
     (commit ref_hash ref_encode (doctest_builder, ref_store)).2.2
     "ab" ref_tree).1
  = (getitem ref_hash ref_decode true 3 ref_store "ab" ref_tree).1 /\
  (get_inclusion_proof ref_hash ref_decode 3
     (commit ref_hash ref_encode (doctest_builder, ref_store)).2.2
     "ab" ref_tree).1
  = (get_inclusion_proof ref_hash ref_decode 3 ref_store "ab" ref_tree).1.
Proof.
  apply (earlier_tree_survives_commit ref_hash ref_encode ref_decode true
           reference_hash_inj reference_hash_nonempty reference_decode_encode
           shared_prefix_builder ∅ ref_tree shared_prefix_builder ref_store
           doctest_builder
           (commit ref_hash ref_encode (doctest_builder, ref_store)).1
           doctest_builder
           (commit ref_hash ref_encode (doctest_builder, ref_store)).2.2
           "ab" 3).
  - vm_compute. reflexivity.
  - vm_compute. reflexivity.
  - simpl. lia.
Defined.

Lemma commit_again_leaves_store_witness :
  commit ref_hash ref_encode (shared_prefix_builder, ref_store)
  = (Ok ref_tree, (shared_prefix_builder, ref_store)).
Proof.
  apply (commit_again_leaves_store ref_hash ref_encode reference_hash_inj
           shared_prefix_builder ∅ (Ok ref_tree) shared_prefix_builder
           ref_store).
  vm_compute. reflexivity.
Defined.

Lemma repeated_lookup_is_served_from_cache_witness :
  exists proof T1,
    get_inclusion_proof ref_hash ref_decode 3 ref_store "ab" ref_tree
      = (Ok proof, T1) /\
    get_inclusion_proof ref_hash ref_decode 3 ∅ "ab" T1 = (Ok proof, T1).
Proof.
  apply (repeated_lookup_is_served_from_cache ref_hash ref_encode ref_decode
           reference_hash_inj reference_hash_nonempty reference_decode_encode
           shared_prefix_builder ∅ ref_tree shared_prefix_builder ref_store
           "ab" 3 ∅).
  - vm_compute. reflexivity.
  - simpl. lia.
Defined.

Lemma make_subtree_right_ordered_witness :
  exists t,
    make_subtree ref_hash ref_encode
      (sorted_by_key (items shared_prefix_builder)) = Ok (flatten t) /\
    right_ordered t.
Proof.
  apply (make_subtree_right_ordered ref_hash ref_encode
           (items shared_prefix_builder)).
  discriminate.
Defined.

Local Abbreviation dangling_leaf := (TreeLeaf "z" "p").
Local Abbreviation dangling_root :=
  (TreeNode "m" (Some "x") (Some (ref_hash (ref_encode dangling_leaf)))).
Local Abbreviation dangling_store :=
  (<[ref_hash (ref_encode dangling_root) := ref_encode dangling_root]>
     {[ref_hash (ref_encode dangling_leaf) := ref_encode dangling_leaf]}).
Local Abbreviation dangling_tree :=
  (Tree_init (ref_hash (ref_encode dangling_root))).

Lemma missing_child_block_witness :
  ((if str_lt "a" "m" then None else Some dangling_leaf) = None ->
   exists T',
     get_inclusion_proof ref_hash ref_decode 1 dangling_store "a" dangling_tree
       = (Raise AttributeError, T') /\
     getitem ref_hash ref_decode true 1 dangling_store "a" dangling_tree
       = (Raise AttributeError, T') /\
     contains ref_hash ref_decode true 1 dangling_store "a" dangling_tree
       = (Raise AttributeError, T')) /\
  (forall k ph,
     (if str_lt "a" "m" then None else Some dangling_leaf)
       = Some (TreeLeaf k ph) ->
     (if str_lt "a" "m" then Some dangling_leaf else None) = None ->
     exists T',
       get_inclusion_proof ref_hash ref_decode 1 dangling_store "a"
         dangling_tree
       = (Ok ([dangling_root; TreeLeaf k ph], []), T')).
Proof.
  apply (missing_child_block ref_hash ref_decode true dangling_store
           dangling_tree "m" (Some "x")
           (Some (ref_hash (ref_encode dangling_leaf)))
           None (Some dangling_leaf) "a" 1).
  - vm_compute. reflexivity.
  - vm_compute. reflexivity.
  - vm_compute. reflexivity.
  - lia.
Defined.
